(** * SinglePlayer-Pong (raylib): a shallow embedding of [src/Pong/main.cpp]

    Modelling conventions.
    - [float] values are idealised as exact rationals [Q]; the comparisons
      [<], [<=], [==] of the source become [Qlt_bool], [Qle_bool], [Qeq_bool].
    - [int] values are [Z] (the scores and the key codes never come near the
      32-bit limits, and signed overflow has no defined result to model).
    - A floating-point division whose divisor is zero is undefined in C++;
      the model makes it an error ([None]) so that the absence of such a
      division becomes a provable property.
    - The libraries the game calls are not part of the repository: [std::sqrt]
      and raylib's [CheckCollisionCircleRec] are fields of the class
      [Platform], so every result holds for any implementation of them;
      raylib's [GetRandomValue] is written after its [rand()]-based
      implementation over an arbitrary stream of [rand()] results. The
      examples run on [sample_platform].
    - Drawing, text layout and audio have no effect on the game state and are
      left out; the two sound effects that consume a random draw keep it. *)

From Stdlib Require Import QArith Qround Qabs ZArith Lia Lqa List.
Import ListNotations.

Open Scope Q_scope.

(** ** Constants and float helpers *)

Definition screenWidth : Z := 800.
Definition screenHeight : Z := 450.

(** [a < b] on floats. *)
Definition Qlt_bool (a b : Q) : bool := negb (Qle_bool b a).

(** C's [trunc]: rounding toward zero. *)
Definition Qtrunc (q : Q) : Z :=
  if Qle_bool 0 q then Qfloor q else Qceiling q.

(** C's [fmod x p]: [x - n * p] with [n = trunc (x / p)]. *)
Definition fmod (a p : Q) : Q := a - inject_Z (Qtrunc (a / p)) * p.

(** [static_cast<int>] of a float: truncation. *)
Definition float_to_int (q : Q) : Z := Qtrunc q.

(** ** Vector2 and its operator overloads *)

Record Vector2 := mkVector2 { vx : Q ; vy : Q }.

Definition vscale (v : Vector2) (s : Q) : Vector2 := mkVector2 (vx v * s) (vy v * s).
Definition vadd (a b : Vector2) : Vector2 := mkVector2 (vx a + vx b) (vy a + vy b).
Definition vsub (a b : Vector2) : Vector2 := mkVector2 (vx a - vx b) (vy a - vy b).

(** ** Game objects *)

Record GameObject := mkGameObject {
  position : Vector2 ;
  versor : Vector2 ;
  speed : Q
}.

Record Paddle := mkPaddle { pobj : GameObject ; size : Vector2 }.
Record Ball := mkBall { bobj : GameObject ; radius : Q }.

Definition RectangleOf := (Q * Q * Q * Q)%type.

Definition toRectangle (p : Paddle) : RectangleOf :=
  (vx (position (pobj p)), vy (position (pobj p)), vx (size p), vy (size p)).

Definition getCenter (p : Paddle) : Vector2 :=
  mkVector2 (vx (position (pobj p)) + vx (size p) / 2)
            (vy (position (pobj p)) + vy (size p) / 2).

(** enum VersorDirection *)
Definition UP : Z := -1.
Definition DOWN : Z := 1.
Definition LEFT : Z := -1.
Definition RIGHT : Z := 1.
Definition NONE : Z := 0.

(** raylib key codes *)
Definition KEY_UP : Z := 265.
Definition KEY_DOWN : Z := 264.

(** ** Game::predictBallY

    The method only reads [ball]; it is a function of the ball and [targetX].
    [None] is the undefined division by [ball.versor.x == 0]. *)
Definition predictBallY (ball : Ball) (targetX : Q) : option Q :=
  let dx := targetX - vx (position (bobj ball)) in
  if Qeq_bool (vx (versor (bobj ball))) 0 then None else
  let dy := dx * (vy (versor (bobj ball)) / vx (versor (bobj ball))) in
  let y_raw := vy (position (bobj ball)) + dy in
  let period := inject_Z (2 * screenHeight) in
  let y_mod := fmod y_raw period in
  let y_mod := if Qlt_bool y_mod 0 then y_mod + period else y_mod in
  if Qle_bool y_mod (inject_Z screenHeight) then Some y_mod
  else Some (period - y_mod).

(** The spec's algorithm (Section 4.1), written from its words: straight-line
    extrapolation, the non-negative remainder modulo the period, and the
    reflection of the upper half. *)
Definition spec_predictY (x0 y0 dirx diry targetX : Q) : Q :=
  let y_raw := y0 + (targetX - x0) * (diry / dirx) in
  let period := inject_Z (2 * screenHeight) in
  let y_mod := y_raw - period * inject_Z (Qfloor (y_raw / period)) in
  if Qle_bool y_mod (inject_Z screenHeight) then y_mod else period - y_mod.

(** Literal simulation of the ball's centre moving in a straight line from
    [(x, y)] along [(dirx, diry)], reflected by the walls [y = 0] and
    [y = screenHeight], until it reaches the vertical line [targetX].
    [tt] is the time left until the line is reached, [tw] the time until the
    next wall; [fuel] bounds the number of bounces. *)
Fixpoint wall_bounce_sim (fuel : nat) (targetX x y dirx diry : Q) : option Q :=
  let H := inject_Z screenHeight in
  let tt := (targetX - x) / dirx in
  let wall := if Qlt_bool 0 diry then H else 0 in
  let tw := (wall - y) / diry in
  if Qeq_bool diry 0 || Qle_bool tt tw then Some (y + diry * tt)
  else match fuel with
       | O => None
       | S fuel' => wall_bounce_sim fuel' targetX (x + dirx * tw) wall dirx (- diry)
       end.

(** ** Paddle and ball behaviour, and the game *)

(** The state of [Game], with the function-local statics of its methods:
    [activeKey] (getCurrentVerticalKey), [predictedY] and
    [lastFrameBallDirX] (handleAIPaddleMovement; [predictedY] is [None]
    until its first initialisation), [currentSpeedRecord] (getSpeedRecord),
    and the number [rng] of [rand()] results consumed so far. *)
Record Game := mkGame {
  leftPaddle : Paddle ;
  rightPaddle : Paddle ;
  ball : Ball ;
  scoreLeft : Z ;
  scoreRight : Z ;
  activeKey : Z ;
  predictedY : option Q ;
  lastFrameBallDirX : Z ;
  currentSpeedRecord : Z ;
  rng : nat
}.

Definition set_leftPaddle (p : Paddle) (g : Game) : Game :=
  mkGame p (rightPaddle g) (ball g) (scoreLeft g) (scoreRight g) (activeKey g)
    (predictedY g) (lastFrameBallDirX g) (currentSpeedRecord g) (rng g).
Definition set_rightPaddle (p : Paddle) (g : Game) : Game :=
  mkGame (leftPaddle g) p (ball g) (scoreLeft g) (scoreRight g) (activeKey g)
    (predictedY g) (lastFrameBallDirX g) (currentSpeedRecord g) (rng g).
Definition set_ball (b : Ball) (g : Game) : Game :=
  mkGame (leftPaddle g) (rightPaddle g) b (scoreLeft g) (scoreRight g) (activeKey g)
    (predictedY g) (lastFrameBallDirX g) (currentSpeedRecord g) (rng g).
Definition set_scores (l r : Z) (g : Game) : Game :=
  mkGame (leftPaddle g) (rightPaddle g) (ball g) l r (activeKey g)
    (predictedY g) (lastFrameBallDirX g) (currentSpeedRecord g) (rng g).
Definition set_activeKey (k : Z) (g : Game) : Game :=
  mkGame (leftPaddle g) (rightPaddle g) (ball g) (scoreLeft g) (scoreRight g) k
    (predictedY g) (lastFrameBallDirX g) (currentSpeedRecord g) (rng g).
Definition set_predictedY (v : Q) (g : Game) : Game :=
  mkGame (leftPaddle g) (rightPaddle g) (ball g) (scoreLeft g) (scoreRight g) (activeKey g)
    (Some v) (lastFrameBallDirX g) (currentSpeedRecord g) (rng g).
Definition set_lastFrameBallDirX (d : Z) (g : Game) : Game :=
  mkGame (leftPaddle g) (rightPaddle g) (ball g) (scoreLeft g) (scoreRight g) (activeKey g)
    (predictedY g) d (currentSpeedRecord g) (rng g).
Definition set_currentSpeedRecord (r : Z) (g : Game) : Game :=
  mkGame (leftPaddle g) (rightPaddle g) (ball g) (scoreLeft g) (scoreRight g) (activeKey g)
    (predictedY g) (lastFrameBallDirX g) r (rng g).
Definition set_rng (n : nat) (g : Game) : Game :=
  mkGame (leftPaddle g) (rightPaddle g) (ball g) (scoreLeft g) (scoreRight g) (activeKey g)
    (predictedY g) (lastFrameBallDirX g) (currentSpeedRecord g) n.

(** A state and error monad over [Game]; [None] is undefined behaviour. *)
Definition M (A : Type) : Type := Game -> option (A * Game).

Definition ret {A} (a : A) : M A := fun g => Some (a, g).
Definition bind {A B} (m : M A) (k : A -> M B) : M B :=
  fun g => match m g with Some (a, g') => k a g' | None => None end.
Definition get : M Game := fun g => Some (g, g).
Definition modify (f : Game -> Game) : M unit := fun g => Some (tt, f g).
Definition undefined {A} : M A := fun _ => None.

Notation "x <- m ;; k" := (bind m (fun x => k))
  (at level 61, m at next level, right associativity).
Notation "m ;;; k" := (bind m (fun _ => k)) (at level 61, right associativity).

(** AudioManager::SoundEffectID *)
Definition PlayerPaddleHit : Z := 0.
Definition AIPaddleHit : Z := 1.
Definition ScorePoint : Z := 2.

(** The number of entries of [AudioManager::hitSounds] after
    [loadSoundEffects], which resizes it to 4. *)
Definition loadSoundEffects_size : Z := 4.

(** What [AudioManager::playSoundEffect(id)] does with [hitSounds] of the
    given size: play the sound, or print the out-of-range error. *)
Inductive SoundOutcome := PlaySound (id : Z) | OutOfRangeError (id : Z).

Definition playSoundEffect (hitSoundsSize id : Z) : SoundOutcome :=
  if (0 <=? id)%Z && (id <? hitSoundsSize)%Z then PlaySound id else OutOfRangeError id.

(** The functions of the C library and of raylib the game calls and the
    repository does not define. *)
Class Platform := {
  (** [std::sqrt] on floats. *)
  sqrtf : Q -> Q ;
  (** raylib's [CheckCollisionCircleRec(center, radius, rec)]. *)
  CheckCollisionCircleRec : Vector2 -> Q -> RectangleOf -> bool ;
  (** The successive results of C's [rand()], used by raylib's [GetRandomValue]. *)
  rand : nat -> Z
}.

Section GameModel.

Context `{Platform}.

(** GameObject::normaliseVersor *)
Definition normaliseVersor (v : Vector2) : Vector2 :=
  let len := sqrtf (vx v * vx v + vy v * vy v) in
  if Qeq_bool len 0 then mkVector2 0 0
  else mkVector2 (vx v / len) (vy v / len).

(** GameObject::update, inherited by Ball *)
Definition GameObject_update (deltaTime : Q) (o : GameObject) : GameObject :=
  mkGameObject
    (vadd (position o) (vscale (vscale (normaliseVersor (versor o)) (speed o)) deltaTime))
    (versor o) (speed o).

(** GameObject::pointTowards *)
Definition pointTowards (target : Vector2) (o : GameObject) : GameObject :=
  mkGameObject (position o) (normaliseVersor (vsub target (position o))) (speed o).

(** Paddle::update: each axis of the displaced position is accepted only if
    the paddle then lies inside the screen on that axis. *)
Definition Paddle_update (deltaTime : Q) (p : Paddle) : Paddle :=
  let o := pobj p in
  let delta := vscale (vscale (normaliseVersor (versor o)) (speed o)) deltaTime in
  let newPosition := vadd (position o) delta in
  let y' := if Qle_bool 0 (vy newPosition)
               && Qle_bool (vy newPosition + vy (size p)) (inject_Z screenHeight)
            then vy newPosition else vy (position o) in
  let x' := if Qle_bool 0 (vx newPosition)
               && Qle_bool (vx newPosition + vx (size p)) (inject_Z screenWidth)
            then vx newPosition else vx (position o) in
  mkPaddle (mkGameObject (mkVector2 x' y') (versor o) (speed o)) (size p).


(** raylib's GetRandomValue (rand()-based implementation). *)
Definition GetRandomValue (min max : Z) : M Z :=
  fun g =>
    let '(lo, hi) := if (max <? min)%Z then (max, min) else (min, max) in
    Some ((rand (rng g) mod (Z.abs (hi - lo) + 1) + lo)%Z, set_rng (S (rng g)) g).

(** Game::randomValidVersor *)
Definition randomValidVersor : M Q :=
  r <- GetRandomValue (-1000) 1000 ;;
  let v := inject_Z r / 1000 in
  ret (if Qeq_bool v 0 then -1 else v).

(** Game::getSpeedRecord *)
Definition getSpeedRecord (resetRecord : bool) : M Z :=
  g <- get ;;
  if resetRecord then modify (set_currentSpeedRecord 0) ;;; ret 0%Z
  else if Qlt_bool (inject_Z (currentSpeedRecord g)) (speed (bobj (ball g)))
  then let r := float_to_int (speed (bobj (ball g))) in
       modify (set_currentSpeedRecord r) ;;; ret r
  else ret (currentSpeedRecord g).

(** [predictBallY(rightPaddle.position.x + rightPaddle.size.x / 2.0f)
    - rightPaddle.size.y / 2.0f] *)
Definition predictTarget : M Q :=
  g <- get ;;
  let rp := rightPaddle g in
  match predictBallY (ball g) (vx (position (pobj rp)) + vx (size rp) / 2) with
  | Some v => ret (v - vy (size rp) / 2)
  | None => undefined
  end.

(** Game::handleAIPaddleMovement; the first call initialises the static
    [predictedY]. *)
Definition handleAIPaddleMovement (resetFunction : bool) : M unit :=
  g0 <- get ;;
  (match predictedY g0 with
   | Some _ => ret tt
   | None => v <- predictTarget ;; modify (set_predictedY v)
   end) ;;;
  if resetFunction then
    v <- predictTarget ;;
    modify (set_predictedY v) ;;;
    g <- get ;;
    modify (set_lastFrameBallDirX (float_to_int (vx (versor (bobj (ball g))))))
  else
    g <- get ;;
    (if (lastFrameBallDirX g =? LEFT)%Z
        && Qeq_bool (vx (versor (bobj (ball g)))) (inject_Z RIGHT)
     then v <- predictTarget ;; modify (set_predictedY v)
     else ret tt) ;;;
    g <- get ;;
    let rp := rightPaddle g in
    let dirx := vx (versor (bobj (ball g))) in
    let target :=
      if Qeq_bool dirx (inject_Z LEFT)
      then mkVector2 (vx (position (pobj rp)))
                     (inject_Z screenHeight / 2 - vy (size rp) / 2)
      else mkVector2 (vx (position (pobj rp)))
                     (match predictedY g with Some v => v | None => 0 end) in
    modify (set_rightPaddle (mkPaddle (pointTowards target (pobj rp)) (size rp))) ;;;
    modify (set_lastFrameBallDirX
              (if negb (Qeq_bool dirx (inject_Z LEFT)) then RIGHT else LEFT)).

(** Game::resetRound *)
Definition resetRound : M unit :=
  g <- get ;;
  let b := ball g in
  vy' <- randomValidVersor ;;
  modify (set_ball (mkBall (mkGameObject
            (mkVector2 (inject_Z screenWidth / 2) (inject_Z screenHeight / 2))
            (mkVector2 (inject_Z RIGHT) vy') 400) (radius b))) ;;;
  handleAIPaddleMovement true.

Definition moveTo (pos : Vector2) (p : Paddle) : Paddle :=
  mkPaddle (mkGameObject pos (versor (pobj p)) (speed (pobj p))) (size p).

(** Game::resetGame *)
Definition resetGame : M unit :=
  modify (fun g => set_rightPaddle
            (moveTo (mkVector2 (inject_Z screenWidth - 50) (inject_Z screenHeight / 2 - 50))
                    (rightPaddle g))
            (set_leftPaddle
               (moveTo (mkVector2 50 (inject_Z screenHeight / 2 - 50)) (leftPaddle g)) g)) ;;;
  g <- get ;;
  let b := ball g in
  vy' <- randomValidVersor ;;
  modify (set_ball (mkBall (mkGameObject
            (mkVector2 (inject_Z screenWidth / 2) (inject_Z screenHeight / 2))
            (mkVector2 (inject_Z RIGHT) vy') 400) (radius b))) ;;;
  modify (set_scores 0 0) ;;;
  getSpeedRecord true ;;;
  handleAIPaddleMovement true.

(** Game::handlePaddleBallCollision, for the left ([isLeftPaddle = true]) or
    the right paddle. *)
Definition handlePaddleBallCollision (isLeftPaddle : bool) : M unit :=
  g <- get ;;
  let paddle := if isLeftPaddle then leftPaddle g else rightPaddle g in
  let b := ball g in
  let o := bobj b in
  if CheckCollisionCircleRec (position o) (radius b) (toRectangle paddle) then
    let versor_x := vx (versor o) * -1 in
    let paddleCenter := getCenter paddle in
    if Qeq_bool (vy (size paddle) / 2) 0 then undefined else
    let versor_y := (vy (position o) - vy paddleCenter) / (vy (size paddle) / 2) in
    let speed' := speed o + 20 * (speed o / 400) * Qabs versor_y in
    modify (set_ball (mkBall (mkGameObject (position o) (mkVector2 versor_x versor_y) speed')
                             (radius b)))
  else ret tt.

(** Game::handleWallBallCollision *)
Definition handleWallBallCollision : M unit :=
  g <- get ;;
  let b := ball g in
  let o := bobj b in
  if Qle_bool (vy (position o) - radius b) 0
     || Qle_bool (inject_Z screenHeight) (vy (position o) + radius b)
  then modify (set_ball (mkBall (mkGameObject (position o)
                 (mkVector2 (vx (versor o)) (vy (versor o) * -1)) (speed o)) (radius b)))
  else ret tt.

(** ScoreText::incrementScore *)
Definition incrementScore (isLeft : bool) : M unit :=
  modify (fun g => if isLeft then set_scores (scoreLeft g + 1) (scoreRight g) g
                   else set_scores (scoreLeft g) (scoreRight g + 1) g).

(** Game::handlePointScoring; [incrementScore(1)] and [incrementScore(0)]
    pass [true] and [false]; the score sound consumes one random draw. *)
Definition handlePointScoring : M unit :=
  g <- get ;;
  let b := ball g in
  let o := bobj b in
  if Qle_bool (inject_Z screenWidth) (vx (position o) + radius b) then
    incrementScore true ;;; GetRandomValue 0 1 ;;; resetRound
  else if Qle_bool (vx (position o) - radius b) 0 then
    incrementScore false ;;; GetRandomValue 0 1 ;;; resetRound
  else ret tt.

(** Game::getCurrentVerticalKey, as a function of its static [activeKey] and
    of the two key states: the new value of [activeKey] and the result. *)
Definition verticalKeyStep (activeKey : Z) (upPressed downPressed : bool) : Z * Z :=
  if negb upPressed && negb downPressed then (-1, -1)%Z
  else if xorb upPressed downPressed then
    let k := if upPressed then KEY_UP else KEY_DOWN in (k, k)
  else if upPressed && downPressed then
    (activeKey, if (activeKey =? KEY_UP)%Z then KEY_DOWN else KEY_UP)
  else (activeKey, activeKey).

Definition getCurrentVerticalKey (upPressed downPressed : bool) : M Z :=
  g <- get ;;
  let '(k', r) := verticalKeyStep (activeKey g) upPressed downPressed in
  modify (set_activeKey k') ;;; ret r.

(** [getCurrentVerticalKey] called once per frame over a sequence of key
    states [(IsKeyDown(KEY_UP), IsKeyDown(KEY_DOWN))]: the results in order. *)
Fixpoint key_trace (inputs : list (bool * bool)) : M (list Z) :=
  match inputs with
  | [] => ret []
  | (u, d) :: rest =>
      k <- getCurrentVerticalKey u d ;;
      ks <- key_trace rest ;;
      ret (k :: ks)
  end.

(** The per-frame input: [IsKeyDown(KEY_UP)], [IsKeyDown(KEY_DOWN)],
    [IsKeyPressed(KEY_R)] and [GetFrameTime()]. *)
Record FrameInput := mkFrameInput {
  upDown : bool ;
  downDown : bool ;
  rPressed : bool ;
  frameTime : Q
}.

(** Game::readInput *)
Definition readInput (i : FrameInput) : M unit :=
  k <- getCurrentVerticalKey (upDown i) (downDown i) ;;
  modify (fun g =>
    let lp := leftPaddle g in
    let o := pobj lp in
    let versor' :=
      if (k =? KEY_UP)%Z then mkVector2 (vx (versor o)) (inject_Z UP)
      else if (k =? KEY_DOWN)%Z then mkVector2 (vx (versor o)) (inject_Z DOWN)
      else mkVector2 (inject_Z NONE) (inject_Z NONE) in
    set_leftPaddle (mkPaddle (mkGameObject (position o) versor' (speed o)) (size lp)) g) ;;;
  if rPressed i then resetGame else ret tt.

(** Game::update *)
Definition update (deltaTime : Q) : M unit :=
  handlePaddleBallCollision true ;;;
  handlePaddleBallCollision false ;;;
  handleWallBallCollision ;;;
  handlePointScoring ;;;
  handleAIPaddleMovement false ;;;
  modify (fun g => set_leftPaddle (Paddle_update deltaTime (leftPaddle g)) g) ;;;
  modify (fun g => set_rightPaddle (Paddle_update deltaTime (rightPaddle g)) g) ;;;
  modify (fun g => set_ball (mkBall (GameObject_update deltaTime (bobj (ball g)))
                                    (radius (ball g))) g) ;;;
  getSpeedRecord false ;;;
  ret tt.

(** One iteration of the main loop (drawing left out). *)
Definition frame (i : FrameInput) : M unit :=
  readInput i ;;; update (frameTime i).

(** The default-constructed [Game] and the initial values of the statics. *)
Definition game_default : Game :=
  mkGame (mkPaddle (mkGameObject (mkVector2 0 0) (mkVector2 0 0) 0) (mkVector2 10 10))
         (mkPaddle (mkGameObject (mkVector2 0 0) (mkVector2 0 0) 0) (mkVector2 10 10))
         (mkBall (mkGameObject (mkVector2 0 0) (mkVector2 0 0) 0) 5)
         0 0 (-1) None LEFT 0 O.

(** Game::init *)
Definition init : M unit :=
  modify (set_leftPaddle
    (mkPaddle (mkGameObject (mkVector2 50 (inject_Z screenHeight / 2 - 50))
                            (mkVector2 (inject_Z NONE) (inject_Z NONE)) 300) (mkVector2 10 100))) ;;;
  modify (set_rightPaddle
    (mkPaddle (mkGameObject (mkVector2 (inject_Z screenWidth - 50) (inject_Z screenHeight / 2 - 50))
                            (mkVector2 (inject_Z NONE) (inject_Z NONE)) 300) (mkVector2 10 100))) ;;;
  vy' <- randomValidVersor ;;
  modify (set_ball (mkBall (mkGameObject
            (mkVector2 (inject_Z screenWidth / 2) (inject_Z screenHeight / 2))
            (mkVector2 (inject_Z RIGHT) vy') 400) 7)) ;;;
  modify (set_scores 0 0).

(** The states the program reaches: after [init], then after any number of
    frames. *)
Inductive reachable : Game -> Prop :=
| reachable_init g : init game_default = Some (tt, g) -> reachable g
| reachable_frame g i g' : reachable g -> frame i g = Some (tt, g') -> reachable g'.

(** The ball's horizontal direction is one of the two values the code gives it. *)
Definition dir_ok (g : Game) : Prop :=
  vx (versor (bobj (ball g))) == 1 \/ vx (versor (bobj (ball g))) == -1.

(** The paddle rectangle lies inside [[0, screenWidth] x [0, screenHeight]]. *)
Definition paddle_inside (p : Paddle) : Prop :=
  0 <= vx (position (pobj p)) /\ vx (position (pobj p)) + vx (size p) <= inject_Z screenWidth /\
  0 <= vy (position (pobj p)) /\ vy (position (pobj p)) + vy (size p) <= inject_Z screenHeight.

(** The invariant of the reachable states. *)
Definition GameInv (g : Game) : Prop :=
  dir_ok g /\
  size (leftPaddle g) = mkVector2 10 100 /\ size (rightPaddle g) = mkVector2 10 100 /\
  400 <= speed (bobj (ball g)) /\
  paddle_inside (leftPaddle g) /\ paddle_inside (rightPaddle g).

(** Weakest precondition of a computation: it does not fail and its result
    and final state satisfy [Post]. *)
Definition wp {A} (m : M A) (Post : A -> Game -> Prop) (g : Game) : Prop :=
  match m g with Some (a, g') => Post a g' | None => False end.

(** The fields [handleAIPaddleMovement] leaves alone. *)
Definition ai_frame (g g' : Game) : Prop :=
  ball g' = ball g /\ leftPaddle g' = leftPaddle g /\
  position (pobj (rightPaddle g')) = position (pobj (rightPaddle g)) /\
  size (rightPaddle g') = size (rightPaddle g) /\
  scoreLeft g' = scoreLeft g /\ scoreRight g' = scoreRight g /\ rng g' = rng g.

(** The stored AI target [predictedY], once set, keeps the paddle's centre
    on the screen: it lies in [[-size.y / 2, screenHeight - size.y / 2]]. *)
Definition pred_ok (g : Game) : Prop :=
  forall v, predictedY g = Some v -> -50 <= v <= 400.

(** The invariant of the reachable states about the fields [GameInv] leaves
    out: the ball radius and the paddle speeds keep their [init] values, the
    paddles never point or move horizontally, the scores are non-negative,
    [activeKey] holds one of the values its comment lists, and the AI target
    is on the screen. *)
Definition ExtInv (g : Game) : Prop :=
  radius (ball g) = 7 /\
  speed (pobj (leftPaddle g)) = 300 /\ speed (pobj (rightPaddle g)) = 300 /\
  vx (versor (pobj (leftPaddle g))) == 0 /\ vx (versor (pobj (rightPaddle g))) == 0 /\
  vx (position (pobj (leftPaddle g))) == 50 /\
  vx (position (pobj (rightPaddle g))) == inject_Z screenWidth - 50 /\
  (0 <= scoreLeft g)%Z /\ (0 <= scoreRight g)%Z /\
  (activeKey g = (-1)%Z \/ activeKey g = KEY_UP \/ activeKey g = KEY_DOWN) /\
  pred_ok g.

(** From [g] to [g'] the score is unchanged, or exactly one side gained one
    point. *)
Definition score_step (g g' : Game) : Prop :=
  (scoreLeft g' = scoreLeft g /\ scoreRight g' = scoreRight g) \/
  (scoreLeft g' = scoreLeft g + 1 /\ scoreRight g' = scoreRight g)%Z \/
  (scoreLeft g' = scoreLeft g /\ scoreRight g' = scoreRight g + 1)%Z.

(** The vertical direction [randomValidVersor] makes of a draw [r] of
    [GetRandomValue(-1000, 1000)]. *)
Definition versor_of_draw (r : Z) : Q :=
  let versor := inject_Z r / 1000 in
  if Qeq_bool versor 0 then -1 else versor.

(** The id [handlePointScoring] passes to [playSoundEffect]:
    [AudioManager::ScorePoint + GetRandomValue(0, 1)]. *)
Definition scoreSoundId : M Z :=
  r <- GetRandomValue 0 1 ;;
  ret (ScorePoint + r)%Z.

End GameModel.

(** The ball a serve puts in play. *)
Definition served_ball (v r : Q) : Ball :=
  mkBall (mkGameObject (mkVector2 (inject_Z screenWidth / 2) (inject_Z screenHeight / 2))
                       (mkVector2 (inject_Z RIGHT) v) 400) r.

(** A ball as the game serves it (radius 7, speed 400), at a given position
    and direction. *)
Definition ball_at (px py dirx diry : Q) : Ball :=
  mkBall (mkGameObject (mkVector2 px py) (mkVector2 dirx diry) 400) 7.

Definition opt_Qeq (a b : option Q) : Prop :=
  match a, b with
  | Some u, Some v => u == v
  | None, None => True
  | _, _ => False
  end.

(** [v] is the image of the unfolded height [r] under the triangle wave of
    period [2 * screenHeight] and amplitude [screenHeight]. *)
Definition tri (r v : Q) : Prop :=
  0 <= v <= inject_Z screenHeight /\
  exists k : Z, r == v + inject_Z k * inject_Z (2 * screenHeight) \/
                r == - v + inject_Z k * inject_Z (2 * screenHeight).

(** The vertical direction of a serve: [randomValidVersor] applied to a
    draw [r] of [GetRandomValue(-1000, 1000)]. *)
Definition serve_draw (v : Q) : Prop :=
  exists r : Z, (-1000 <= r <= 1000)%Z /\
    v = (let d := inject_Z r / 1000 in if Qeq_bool d 0 then -1 else d).

(** The direction a serve gives the ball: exactly [RIGHT] horizontally, a
    non-zero drawn value in [[-1, 1]] vertically. *)
Definition serve_versor_ok (v : Vector2) : Prop :=
  vx v = inject_Z RIGHT /\ -1 <= vy v <= 1 /\ ~ vy v == 0 /\ serve_draw (vy v).

(** ** A sample platform

    Concrete library functions, used to run the model on examples: a Newton
    approximation of the square root, raylib's circle-rectangle collision
    test, and a fixed stream of [rand()] results. *)

Fixpoint newton_sqrt (n : nat) (a x : Q) : Q :=
  match n with
  | O => x
  | S n' => newton_sqrt n' a (Qred ((x + a / x) / 2))
  end.

Definition sample_sqrtf (a : Q) : Q :=
  if Qle_bool a 0 then 0 else newton_sqrt 6 a (Qred ((a + 1) / 2)).

(** raylib's [CheckCollisionCircleRec] (rshapes.c) over rationals. *)
Definition raylib_CheckCollisionCircleRec (center : Vector2) (radius : Q)
    (rec : RectangleOf) : bool :=
  let '(rx, ry, rw, rh) := rec in
  let recCenterX := rx + rw / 2 in
  let recCenterY := ry + rh / 2 in
  let dx := Qabs (vx center - recCenterX) in
  let dy := Qabs (vy center - recCenterY) in
  if Qlt_bool (rw / 2 + radius) dx then false
  else if Qlt_bool (rh / 2 + radius) dy then false
  else if Qle_bool dx (rw / 2) then true
  else if Qle_bool dy (rh / 2) then true
  else Qle_bool ((dx - rw / 2) * (dx - rw / 2) + (dy - rh / 2) * (dy - rh / 2))
                (radius * radius).

Definition sample_rand (n : nat) : Z :=
  ((Z.of_nat n * 1103515245 + 12345) mod 2147483648)%Z.

Definition sample_platform : Platform :=
  {| sqrtf := sample_sqrtf ;
     CheckCollisionCircleRec := raylib_CheckCollisionCircleRec ;
     rand := sample_rand |}.

(** The state after [Game::init] on the sample platform. *)
Definition sample_init_state : Game :=
  match @init sample_platform game_default with
  | Some (_, g) => g
  | None => game_default
  end.

(** The initial state with the ball moving left, touching the left paddle. *)
Definition sample_hit_state : Game :=
  set_ball (ball_at 62 230 (-1) 0) sample_init_state.

(** ** Proofs about the game *)



Lemma wp_ret {A} (a : A) Post g : Post a g -> wp (ret a) Post g.
Proof. intro HP. exact HP. Qed.

Lemma wp_bind {A B} (m : M A) (k : A -> M B) Post g :
  wp m (fun a g1 => wp (k a) Post g1) g -> wp (bind m k) Post g.
Proof. unfold wp, bind. destruct (m g) as [[a g1]|]; auto. Qed.

Lemma wp_get Post g : Post g g -> wp get Post g.
Proof. intro HP. exact HP. Qed.

Lemma wp_modify f Post g : Post tt (f g) -> wp (modify f) Post g.
Proof. intro HP. exact HP. Qed.

Lemma wp_conseq {A} (m : M A) (Post Post' : A -> Game -> Prop) g :
  wp m Post g -> (forall a g', Post a g' -> Post' a g') -> wp m Post' g.
Proof. unfold wp. destruct (m g) as [[a g']|]; auto. Qed.

Lemma wp_Some {A} (m : M A) Post g :
  wp m Post g -> exists a g', m g = Some (a, g') /\ Post a g'.
Proof. unfold wp. destruct (m g) as [[a g']|]; [eauto|contradiction]. Qed.

Lemma wp_of_Some {A} (m : M A) (Post : A -> Game -> Prop) g a g' :
  m g = Some (a, g') -> Post a g' -> wp m Post g.
Proof. unfold wp. intros E HP. rewrite E. exact HP. Qed.

Ltac wp_step :=
  match goal with
  | |- wp (bind _ _) _ _ => apply wp_bind
  | |- wp get _ _ => apply wp_get
  | |- wp (modify _) _ _ => apply wp_modify
  | |- wp (ret _) _ _ => apply wp_ret
  end.

Ltac wp_run :=
  repeat (first
    [ wp_step
    | match goal with
      | |- wp (if ?c then _ else _) _ _ => destruct c eqn:?
      | |- wp (match ?x with _ => _ end) _ _ => destruct x eqn:?
      end ]; cbv beta zeta).

Ltac simpl_game :=
  cbn [set_leftPaddle set_rightPaddle set_ball set_scores set_activeKey set_predictedY
       set_lastFrameBallDirX set_currentSpeedRecord set_rng leftPaddle rightPaddle ball
       scoreLeft scoreRight activeKey predictedY lastFrameBallDirX currentSpeedRecord rng
       bobj pobj radius size position versor speed vx vy] in *.

(** [Some (a, x) = Some (b, y)] gives [y = x] with both sides as written. *)
Ltac some_inj E :=
  match type of E with
  | Some (_, ?x) = Some (_, ?y) =>
      let Eg := fresh "Eg" in
      assert (Eg : y = x) by (injection E; auto); subst y; clear E
  end.

Section GameProofs.
Context `{Platform}.

Lemma randomValidVersor_spec g (Post : Q -> Game -> Prop) :
  (forall v, -1 <= v <= 1 -> ~ v == 0 ->
     v = (let d := inject_Z ((rand (rng g) mod 2001) + -1000)%Z / 1000 in
          if Qeq_bool d 0 then -1 else d) ->
     Post v (set_rng (S (rng g)) g)) ->
  wp randomValidVersor Post g.
Proof.
  intro HP. unfold randomValidVersor. wp_step.
  unfold wp at 1, GetRandomValue. simpl.
  apply wp_ret. apply HP; [| |reflexivity].
  - pose proof (Z.mod_pos_bound (rand (rng g)) 2001 ltac:(lia)) as B.
    set (r := (rand (rng g) mod 2001)%Z) in *.
    destruct (Qeq_bool (inject_Z (r + -1000) / 1000) 0); [lra|].
    assert (B' : -1000 <= inject_Z (r + -1000) <= 1000).
    { rewrite !Zle_Qle in B. unfold Qle in *; simpl in *; lia. }
    unfold Qdiv. change (/ 1000) with (1#1000). lra.
  - destruct (Qeq_bool (inject_Z ((rand (rng g) mod 2001) + -1000) / 1000) 0) eqn:E.
    + intro E'. discriminate E'.
    + apply Qeq_bool_neq in E. exact E.
Qed.

Lemma randomValidVersor_draw (n : nat) :
  serve_draw (let d := inject_Z ((rand n mod 2001) + -1000)%Z / 1000 in
              if Qeq_bool d 0 then -1 else d).
Proof.
  exists ((rand n mod 2001) + -1000)%Z. split; [|reflexivity].
  pose proof (Z.mod_pos_bound (rand n) 2001 ltac:(lia)). lia.
Qed.

Lemma predictBallY_defined (b : Ball) (targetX : Q) :
  ~ vx (versor (bobj b)) == 0 -> exists v, predictBallY b targetX = Some v.
Proof.
  intro Hx. unfold predictBallY.
  destruct (Qeq_bool (vx (versor (bobj b))) 0) eqn:E.
  - apply Qeq_bool_iff in E. contradiction.
  - destruct (Qle_bool _ _); eexists; reflexivity.
Qed.

Lemma predictTarget_spec g (Post : Q -> Game -> Prop) :
  ~ vx (versor (bobj (ball g))) == 0 -> (forall v, Post v g) -> wp predictTarget Post g.
Proof.
  intros Hx HP. unfold predictTarget. apply wp_bind, wp_get. cbv beta zeta.
  destruct (predictBallY_defined (ball g)
              (vx (position (pobj (rightPaddle g))) + vx (size (rightPaddle g)) / 2) Hx)
    as [v E].
  rewrite E. apply wp_ret, HP.
Qed.

Lemma ai_frame_refl g : ai_frame g g.
Proof. repeat split. Qed.

Lemma handleAIPaddleMovement_spec (resetFunction : bool) g (Post : unit -> Game -> Prop) :
  ~ vx (versor (bobj (ball g))) == 0 ->
  (forall g', ai_frame g g' -> Post tt g') ->
  wp (handleAIPaddleMovement resetFunction) Post g.
Proof.
  intros Hx HP. unfold handleAIPaddleMovement. wp_run.
  all: repeat (apply predictTarget_spec; [cbn; exact Hx|]; intro; wp_run).
  all: apply HP; unfold ai_frame; cbn; repeat split.
Qed.

Lemma GameInv_transfer g g' :
  GameInv g -> ball g' = ball g ->
  position (pobj (leftPaddle g')) = position (pobj (leftPaddle g)) ->
  size (leftPaddle g') = size (leftPaddle g) ->
  position (pobj (rightPaddle g')) = position (pobj (rightPaddle g)) ->
  size (rightPaddle g') = size (rightPaddle g) ->
  GameInv g'.
Proof.
  unfold GameInv, dir_ok, paddle_inside.
  intros Inv Eb El1 El2 Er1 Er2. rewrite Eb, El1, El2, Er1, Er2. exact Inv.
Qed.

Lemma getSpeedRecord_spec (resetRecord : bool) g (Post : Z -> Game -> Prop) :
  (forall r g', ball g' = ball g -> leftPaddle g' = leftPaddle g ->
     rightPaddle g' = rightPaddle g -> scoreLeft g' = scoreLeft g ->
     scoreRight g' = scoreRight g -> Post r g') ->
  wp (getSpeedRecord resetRecord) Post g.
Proof. intro HP. unfold getSpeedRecord. wp_run; apply HP; reflexivity. Qed.

Lemma resetRound_spec g (Post : unit -> Game -> Prop) :
  (forall v g', serve_draw v -> -1 <= v <= 1 -> ~ v == 0 ->
     ball g' = served_ball v (radius (ball g)) ->
     leftPaddle g' = leftPaddle g ->
     position (pobj (rightPaddle g')) = position (pobj (rightPaddle g)) ->
     size (rightPaddle g') = size (rightPaddle g) ->
     scoreLeft g' = scoreLeft g -> scoreRight g' = scoreRight g -> Post tt g') ->
  wp resetRound Post g.
Proof.
  intro HP. unfold resetRound. wp_run.
  apply randomValidVersor_spec. intros v B NZ Ev. wp_run.
  apply handleAIPaddleMovement_spec; [cbn; discriminate|].
  intros g' (E1 & E2 & E3 & E4 & E5 & E6 & _).
  apply (HP v); [rewrite Ev; apply randomValidVersor_draw|..]; try assumption; rewrite ?E1, ?E2, ?E3, ?E4, ?E5, ?E6; reflexivity.
Qed.

Lemma resetGame_spec g (Post : unit -> Game -> Prop) :
  (forall v g', serve_draw v -> -1 <= v <= 1 -> ~ v == 0 ->
     ball g' = served_ball v (radius (ball g)) ->
     position (pobj (leftPaddle g')) = mkVector2 50 (inject_Z screenHeight / 2 - 50) ->
     size (leftPaddle g') = size (leftPaddle g) ->
     position (pobj (rightPaddle g')) =
       mkVector2 (inject_Z screenWidth - 50) (inject_Z screenHeight / 2 - 50) ->
     size (rightPaddle g') = size (rightPaddle g) ->
     scoreLeft g' = 0%Z -> scoreRight g' = 0%Z -> Post tt g') ->
  wp resetGame Post g.
Proof.
  intro HP. unfold resetGame. wp_run.
  apply randomValidVersor_spec. intros v B NZ Ev. wp_run.
  apply getSpeedRecord_spec. intros r g1 F1 F2 F3 F4 F5.
  apply handleAIPaddleMovement_spec; [rewrite F1; cbn; discriminate|].
  intros g' (E1 & E2 & E3 & E4 & E5 & E6 & _).
  apply (HP v); [rewrite Ev; apply randomValidVersor_draw|..]; try assumption;
    rewrite ?E1, ?E2, ?E3, ?E4, ?E5, ?E6, ?F1, ?F2, ?F3, ?F4, ?F5; reflexivity.
Qed.

Lemma dir_ok_nonzero g : dir_ok g -> ~ vx (versor (bobj (ball g))) == 0.
Proof. intros [E|E]; rewrite E; discriminate. Qed.

(** What a step that only touches the ball keeps of the invariant. *)
Lemma GameInv_ball g g' :
  GameInv g ->
  (vx (versor (bobj (ball g'))) == 1 \/ vx (versor (bobj (ball g'))) == -1) ->
  400 <= speed (bobj (ball g')) ->
  leftPaddle g' = leftPaddle g -> rightPaddle g' = rightPaddle g ->
  GameInv g'.
Proof.
  intros (_ & S1 & S2 & _ & I1 & I2) D Sp El Er.
  unfold GameInv. rewrite El, Er. exact (conj D (conj S1 (conj S2 (conj Sp (conj I1 I2))))).
Qed.

Lemma speed_increment_ge (s v : Q) : 0 <= s -> s <= s + 20 * (s / 400) * Qabs v.
Proof.
  intro Hs.
  assert (0 <= 20 * (s / 400) * Qabs v).
  { apply Qmult_le_0_compat; [|apply Qabs_nonneg].
    unfold Qdiv. change (/ 400) with (1#400). lra. }
  lra.
Qed.

Lemma handlePaddleBallCollision_spec (isLeftPaddle : bool) g (Post : unit -> Game -> Prop) :
  GameInv g ->
  (forall g', GameInv g' ->
     speed (bobj (ball g)) <= speed (bobj (ball g')) ->
     position (bobj (ball g')) = position (bobj (ball g)) ->
     radius (ball g') = radius (ball g) ->
     leftPaddle g' = leftPaddle g -> rightPaddle g' = rightPaddle g ->
     scoreLeft g' = scoreLeft g -> scoreRight g' = scoreRight g -> Post tt g') ->
  wp (handlePaddleBallCollision isLeftPaddle) Post g.
Proof.
  intros Inv HP.
  pose proof Inv as (D & S1 & S2 & Sp & _).
  unfold handlePaddleBallCollision. wp_run.
  - exfalso. destruct isLeftPaddle; [rewrite S1 in *|rewrite S2 in *]; discriminate.
  - apply HP; try reflexivity.
    + apply (GameInv_ball g); try reflexivity; [exact Inv| |simpl_game].
      * simpl_game. destruct D as [D|D]; [right|left]; rewrite D; reflexivity.
      * eapply Qle_trans; [exact Sp|]. apply speed_increment_ge. lra.
    + simpl_game. apply speed_increment_ge. lra.
  - apply HP; try reflexivity; [exact Inv|apply Qle_refl].
Qed.

Lemma handleWallBallCollision_spec g (Post : unit -> Game -> Prop) :
  GameInv g ->
  (forall g', GameInv g' ->
     speed (bobj (ball g')) = speed (bobj (ball g)) ->
     position (bobj (ball g')) = position (bobj (ball g)) ->
     radius (ball g') = radius (ball g) ->
     leftPaddle g' = leftPaddle g -> rightPaddle g' = rightPaddle g ->
     scoreLeft g' = scoreLeft g -> scoreRight g' = scoreRight g -> Post tt g') ->
  wp handleWallBallCollision Post g.
Proof.
  intros Inv HP. pose proof Inv as (D & _ & _ & Sp & _).
  unfold handleWallBallCollision. wp_run; apply HP; try reflexivity; exact Inv.
Qed.

Lemma GameInv_served g g' v r :
  GameInv g -> ball g' = served_ball v r ->
  position (pobj (leftPaddle g')) = position (pobj (leftPaddle g)) ->
  size (leftPaddle g') = size (leftPaddle g) ->
  position (pobj (rightPaddle g')) = position (pobj (rightPaddle g)) ->
  size (rightPaddle g') = size (rightPaddle g) ->
  GameInv g'.
Proof.
  intros (_ & S1 & S2 & _ & I1 & I2) Eb El1 El2 Er1 Er2.
  unfold GameInv, paddle_inside, dir_ok in *.
  rewrite Eb, El1, El2, Er1, Er2. cbn [served_ball bobj versor vx speed].
  split; [left; reflexivity|].
  split; [exact S1|]. split; [exact S2|]. split; [apply Qle_refl|].
  split; assumption.
Qed.

Lemma GetRandomValue_spec (lo hi : Z) g (Post : Z -> Game -> Prop) :
  (forall r, Post r (set_rng (S (rng g)) g)) -> wp (GetRandomValue lo hi) Post g.
Proof.
  intro HP. unfold wp, GetRandomValue.
  destruct (if (hi <? lo)%Z then (hi, lo) else (lo, hi)). apply HP.
Qed.

Lemma handlePointScoring_spec g (Post : unit -> Game -> Prop) :
  GameInv g -> (forall g', GameInv g' -> Post tt g') ->
  wp handlePointScoring Post g.
Proof.
  intros Inv HP. pose proof Inv as (D & S1 & S2 & Sp & I1 & I2).
  unfold handlePointScoring, incrementScore. wp_run.
  all: try (apply HP; exact Inv).
  all: apply GetRandomValue_spec; intros _.
  all: apply resetRound_spec; intros v g' _ B NZ Eb El Er1 Er2 _ _; apply HP.
  all: apply (GameInv_served g g' v (radius (ball g))); try assumption.
  all: simpl_game; rewrite El; reflexivity.
Qed.

(** One axis of [Paddle::update]: the accepted coordinate keeps the paddle
    inside whenever the old one did. *)
Lemma accept_axis (a old sz hi : Q) :
  0 <= old -> old + sz <= hi ->
  0 <= (if Qle_bool 0 a && Qle_bool (a + sz) hi then a else old) /\
  (if Qle_bool 0 a && Qle_bool (a + sz) hi then a else old) + sz <= hi.
Proof.
  intros H1 H2.
  destruct (Qle_bool 0 a && Qle_bool (a + sz) hi) eqn:E; [|split; assumption].
  apply Bool.andb_true_iff in E. destruct E as [E1 E2].
  apply Qle_bool_iff in E1, E2. split; assumption.
Qed.

Lemma Paddle_update_inside (deltaTime : Q) (p : Paddle) :
  paddle_inside p -> paddle_inside (Paddle_update deltaTime p).
Proof.
  unfold paddle_inside, Paddle_update. cbv zeta. cbn [position pobj size vx vy].
  intros (X1 & X2 & Y1 & Y2).
  set (np := vadd (position (pobj p))
               (vscale (vscale (normaliseVersor (versor (pobj p))) (speed (pobj p))) deltaTime)).
  destruct (accept_axis (vx np) _ _ _ X1 X2) as [A1 A2].
  destruct (accept_axis (vy np) _ _ _ Y1 Y2) as [B1 B2].
  repeat split; eassumption.
Qed.

Lemma GameInv_paddle_update (deltaTime : Q) g :
  GameInv g ->
  GameInv (set_leftPaddle (Paddle_update deltaTime (leftPaddle g)) g) /\
  GameInv (set_rightPaddle (Paddle_update deltaTime (rightPaddle g)) g).
Proof.
  intros (D & S1 & S2 & Sp & I1 & I2). unfold GameInv. simpl_game.
  pose proof (Paddle_update_inside deltaTime _ I1).
  pose proof (Paddle_update_inside deltaTime _ I2).
  assert (Es : forall p, size (Paddle_update deltaTime p) = size p) by reflexivity.
  rewrite !Es.
  split; refine (conj D (conj _ (conj _ (conj Sp (conj _ _))))); assumption.
Qed.

Lemma GameInv_reset g g' v r :
  GameInv g -> ball g' = served_ball v r ->
  position (pobj (leftPaddle g')) = mkVector2 50 (inject_Z screenHeight / 2 - 50) ->
  size (leftPaddle g') = size (leftPaddle g) ->
  position (pobj (rightPaddle g')) =
    mkVector2 (inject_Z screenWidth - 50) (inject_Z screenHeight / 2 - 50) ->
  size (rightPaddle g') = size (rightPaddle g) ->
  GameInv g'.
Proof.
  intros (_ & S1 & S2 & _ & _ & _) Eb El1 El2 Er1 Er2.
  unfold GameInv, paddle_inside, dir_ok.
  rewrite Eb, El1, El2, Er1, Er2, S1, S2. cbn [served_ball bobj versor vx vy speed].
  split; [left; reflexivity|].
  split; [reflexivity|]. split; [reflexivity|]. split; [apply Qle_refl|].
  split; repeat split; apply Qle_bool_iff; reflexivity.
Qed.

Lemma readInput_spec (i : FrameInput) g (Post : unit -> Game -> Prop) :
  GameInv g -> (forall g', GameInv g' -> Post tt g') -> wp (readInput i) Post g.
Proof.
  intros Inv HP. unfold readInput, getCurrentVerticalKey. wp_run.
  all: try (apply HP; exact Inv).
  all: apply resetGame_spec; intros v g' _ _ _ Eb El1 El2 Er1 Er2 _ _; apply HP.
  all: apply (GameInv_reset g g' v (radius (ball g)) Inv); try assumption.
  all: rewrite ?El2, ?Er2; reflexivity.
Qed.

Lemma update_spec (deltaTime : Q) g (Post : unit -> Game -> Prop) :
  GameInv g -> (forall g', GameInv g' -> Post tt g') -> wp (update deltaTime) Post g.
Proof.
  intros Inv HP. unfold update.
  apply wp_bind, handlePaddleBallCollision_spec; [exact Inv|]. intros g1 Inv1 _ _ _ _ _ _ _.
  apply wp_bind, handlePaddleBallCollision_spec; [exact Inv1|]. intros g2 Inv2 _ _ _ _ _ _ _.
  apply wp_bind, handleWallBallCollision_spec; [exact Inv2|]. intros g3 Inv3 _ _ _ _ _ _ _.
  apply wp_bind, handlePointScoring_spec; [exact Inv3|]. intros g4 Inv4.
  apply wp_bind, handleAIPaddleMovement_spec; [apply dir_ok_nonzero, Inv4|].
  intros g5 (E1 & E2 & E3 & E4 & _).
  assert (Inv5 : GameInv g5)
    by (apply (GameInv_transfer g4); rewrite ?E1, ?E2, ?E3, ?E4; try reflexivity; exact Inv4).
  apply wp_bind, wp_modify.
  destruct (GameInv_paddle_update deltaTime g5 Inv5) as [Inv6 _].
  apply wp_bind, wp_modify.
  destruct (GameInv_paddle_update deltaTime _ Inv6) as [_ Inv7].
  apply wp_bind, wp_modify.
  apply wp_bind, getSpeedRecord_spec. intros r g8 B8 L8 R8 _ _.
  apply wp_ret, HP.
  apply (GameInv_ball _ g8 Inv7); rewrite ?B8, ?L8, ?R8; try reflexivity; apply Inv7.
Qed.

Lemma frame_spec (i : FrameInput) g (Post : unit -> Game -> Prop) :
  GameInv g -> (forall g', GameInv g' -> Post tt g') -> wp (frame i) Post g.
Proof.
  intros Inv HP. unfold frame.
  apply wp_bind, readInput_spec; [exact Inv|]. intros g1 Inv1.
  apply update_spec; assumption.
Qed.

Lemma init_spec (Post : unit -> Game -> Prop) :
  (forall g', GameInv g' -> Post tt g') -> wp init Post game_default.
Proof.
  intro HP. unfold init. wp_run.
  apply randomValidVersor_spec. intros v _ _ _. wp_run.
  apply HP. unfold GameInv, dir_ok, paddle_inside. simpl_game.
  split; [left; reflexivity|].
  split; [reflexivity|]. split; [reflexivity|]. split; [apply Qle_refl|].
  split; repeat split; apply Qle_bool_iff; reflexivity.
Qed.

Lemma reachable_GameInv g : reachable g -> GameInv g.
Proof.
  induction 1 as [g Hinit|g i g' _ IH Hf].
  - destruct (wp_Some _ _ _ (init_spec (fun _ g' => GameInv g') (fun g' I => I)))
      as [a [g1 [E I1]]].
    rewrite Hinit in E. injection E as _ <-. exact I1.
  - destruct (wp_Some _ _ _ (frame_spec i g (fun _ g' => GameInv g') IH (fun g' I => I)))
      as [a [g1 [E I1]]].
    rewrite Hf in E. injection E as _ <-. exact I1.
Qed.

(** *** Facts used by the claims below *)

Lemma wp_inv {A} (m : M A) (Post : A -> Game -> Prop) g a g' :
  wp m Post g -> m g = Some (a, g') -> Post a g'.
Proof. unfold wp. intros HP E. rewrite E in HP. exact HP. Qed.

Lemma wp_and {A} (m : M A) (P1 P2 : A -> Game -> Prop) g :
  wp m P1 g -> wp m P2 g -> wp m (fun a g' => P1 a g' /\ P2 a g') g.
Proof. unfold wp. destruct (m g) as [[a g']|]; tauto. Qed.

Lemma wp_same {A} (m m' : M A) (Post : A -> Game -> Prop) g :
  m g = m' g -> wp m' Post g -> wp m Post g.
Proof. unfold wp. intro E. rewrite E. exact id. Qed.

Lemma reachable_frame_total g (i : FrameInput) :
  reachable g -> exists g', frame i g = Some (tt, g').
Proof.
  intro Hr.
  destruct (wp_Some _ _ _ (frame_spec i g (fun _ _ => True) (reachable_GameInv g Hr)
                             (fun _ _ => I))) as [[] [g' [E _]]].
  exists g'. exact E.
Qed.

Lemma handlePaddleBallCollision_nohit (isLeftPaddle : bool) g :
  CheckCollisionCircleRec (position (bobj (ball g))) (radius (ball g))
    (toRectangle (if isLeftPaddle then leftPaddle g else rightPaddle g)) = false ->
  handlePaddleBallCollision isLeftPaddle g = Some (tt, g).
Proof.
  intro Hh. unfold handlePaddleBallCollision, bind, get, ret. cbv beta iota zeta.
  rewrite Hh. reflexivity.
Qed.

Lemma handlePaddleBallCollision_spec_nohit (isLeftPaddle : bool) g
    (Post : unit -> Game -> Prop) :
  GameInv g ->
  (forall g', GameInv g' ->
     speed (bobj (ball g)) <= speed (bobj (ball g')) ->
     position (bobj (ball g')) = position (bobj (ball g)) ->
     radius (ball g') = radius (ball g) ->
     leftPaddle g' = leftPaddle g -> rightPaddle g' = rightPaddle g ->
     (CheckCollisionCircleRec (position (bobj (ball g))) (radius (ball g))
        (toRectangle (if isLeftPaddle then leftPaddle g else rightPaddle g)) = false ->
      g' = g) ->
     Post tt g') ->
  wp (handlePaddleBallCollision isLeftPaddle) Post g.
Proof.
  intros Inv HP.
  destruct (CheckCollisionCircleRec (position (bobj (ball g))) (radius (ball g))
              (toRectangle (if isLeftPaddle then leftPaddle g else rightPaddle g))) eqn:Hh.
  - apply handlePaddleBallCollision_spec; [exact Inv|].
    intros g' I' S' P' R' L' Rt' _ _. apply HP; try assumption. discriminate.
  - apply (wp_of_Some _ _ _ tt g (handlePaddleBallCollision_nohit isLeftPaddle g Hh)).
    apply HP; try reflexivity; [exact Inv|apply Qle_refl].
Qed.

Lemma handlePaddleBallCollision_hit_eq (isLeftPaddle : bool) g :
  let paddle := if isLeftPaddle then leftPaddle g else rightPaddle g in
  let o := bobj (ball g) in
  CheckCollisionCircleRec (position o) (radius (ball g)) (toRectangle paddle) = true ->
  handlePaddleBallCollision isLeftPaddle g =
  if Qeq_bool (vy (size paddle) / 2) 0 then None else
  let versor_y := (vy (position o) - vy (getCenter paddle)) / (vy (size paddle) / 2) in
  Some (tt, set_ball (mkBall (mkGameObject (position o)
                                (mkVector2 (vx (versor o) * -1) versor_y)
                                (speed o + 20 * (speed o / 400) * Qabs versor_y))
                             (radius (ball g))) g).
Proof.
  cbv zeta. intro Hh. unfold handlePaddleBallCollision, bind, get, modify, ret, undefined.
  cbv beta iota zeta. rewrite Hh. destruct (Qeq_bool _ 0); reflexivity.
Qed.

Lemma handlePaddleBallCollision_speed (isLeftPaddle : bool) g g' :
  handlePaddleBallCollision isLeftPaddle g = Some (tt, g') ->
  0 <= speed (bobj (ball g)) -> speed (bobj (ball g)) <= speed (bobj (ball g')).
Proof.
  intros E Hs.
  destruct (CheckCollisionCircleRec (position (bobj (ball g))) (radius (ball g))
              (toRectangle (if isLeftPaddle then leftPaddle g else rightPaddle g))) eqn:Hh.
  - rewrite (handlePaddleBallCollision_hit_eq isLeftPaddle g Hh) in E.
    destruct (Qeq_bool _ 0); [discriminate|].
    cbv beta iota zeta in E. some_inj E. simpl_game. apply speed_increment_ge. exact Hs.
  - rewrite (handlePaddleBallCollision_nohit isLeftPaddle g Hh) in E.
    some_inj E. apply Qle_refl.
Qed.

Lemma handleWallBallCollision_speed g g' :
  handleWallBallCollision g = Some (tt, g') ->
  speed (bobj (ball g')) = speed (bobj (ball g)).
Proof.
  intro E. unfold handleWallBallCollision, bind, get, modify, ret in E.
  cbv beta iota zeta in E.
  destruct (_ || _); injection E as <-; reflexivity.
Qed.

Lemma handlePointScoring_noscore g :
  vx (position (bobj (ball g))) + radius (ball g) < inject_Z screenWidth ->
  0 < vx (position (bobj (ball g))) - radius (ball g) ->
  handlePointScoring g = Some (tt, g).
Proof.
  intros H1 H2. unfold handlePointScoring, bind, get, ret. cbv beta iota zeta.
  destruct (Qle_bool (inject_Z screenWidth) _) eqn:E1;
    [apply Qle_bool_iff in E1; lra|].
  destruct (Qle_bool _ 0) eqn:E2; [apply Qle_bool_iff in E2; lra|reflexivity].
Qed.

Lemma handlePointScoring_right g :
  inject_Z screenWidth <= vx (position (bobj (ball g))) + radius (ball g) ->
  handlePointScoring g = (incrementScore true ;;; GetRandomValue 0 1 ;;; resetRound) g.
Proof.
  intro H1. apply Qle_bool_iff in H1.
  unfold handlePointScoring, bind at 1, get. cbv beta iota zeta.
  rewrite H1. reflexivity.
Qed.

Lemma handlePointScoring_left g :
  vx (position (bobj (ball g))) + radius (ball g) < inject_Z screenWidth ->
  vx (position (bobj (ball g))) - radius (ball g) <= 0 ->
  handlePointScoring g = (incrementScore false ;;; GetRandomValue 0 1 ;;; resetRound) g.
Proof.
  intros H1 H2. apply Qle_bool_iff in H2.
  unfold handlePointScoring, bind at 1, get. cbv beta iota zeta.
  destruct (Qle_bool (inject_Z screenWidth) _) eqn:E1;
    [apply Qle_bool_iff in E1; lra|].
  rewrite H2. reflexivity.
Qed.

Lemma readInput_noreset_spec (i : FrameInput) g (Post : unit -> Game -> Prop) :
  GameInv g -> rPressed i = false ->
  (forall g', GameInv g' -> ball g' = ball g ->
     toRectangle (leftPaddle g') = toRectangle (leftPaddle g) ->
     rightPaddle g' = rightPaddle g -> Post tt g') ->
  wp (readInput i) Post g.
Proof.
  intros Inv Hr HP.
  assert (W : wp (readInput i) (fun _ g' => ball g' = ball g /\
             toRectangle (leftPaddle g') = toRectangle (leftPaddle g) /\
             rightPaddle g' = rightPaddle g) g).
  { unfold readInput, getCurrentVerticalKey. rewrite Hr. wp_run.
    all: unfold toRectangle; simpl_game; split; [|split]; reflexivity. }
  apply (wp_conseq _ _ _ _
           (wp_and _ _ _ _ (readInput_spec i g (fun _ g' => GameInv g') Inv (fun _ I => I)) W)).
  intros [] g' [I (E1 & E2 & E3)]. apply HP; assumption.
Qed.

Lemma update_speed (deltaTime : Q) g (Post : unit -> Game -> Prop) :
  GameInv g ->
  vx (position (bobj (ball g))) + radius (ball g) < inject_Z screenWidth ->
  0 < vx (position (bobj (ball g))) - radius (ball g) ->
  (forall g', speed (bobj (ball g)) <= speed (bobj (ball g')) ->
     (CheckCollisionCircleRec (position (bobj (ball g))) (radius (ball g))
        (toRectangle (leftPaddle g)) = false ->
      CheckCollisionCircleRec (position (bobj (ball g))) (radius (ball g))
        (toRectangle (rightPaddle g)) = false ->
      speed (bobj (ball g')) = speed (bobj (ball g))) ->
     Post tt g') ->
  wp (update deltaTime) Post g.
Proof.
  intros Inv Hs1 Hs2 HP. unfold update.
  apply wp_bind, handlePaddleBallCollision_spec_nohit; [exact Inv|].
  intros g1 Inv1 S1 P1 R1 _ _ N1.
  apply wp_bind, handlePaddleBallCollision_spec_nohit; [exact Inv1|].
  intros g2 Inv2 S2 P2 R2 _ _ N2.
  apply wp_bind, handleWallBallCollision_spec; [exact Inv2|].
  intros g3 Inv3 S3 P3 R3 _ _ _ _.
  apply wp_bind, (wp_of_Some _ _ _ tt g3);
    [apply handlePointScoring_noscore; rewrite P3, R3, P2, R2, P1, R1; assumption|].
  apply wp_bind, handleAIPaddleMovement_spec; [apply dir_ok_nonzero, Inv3|].
  intros g5 (E5 & _).
  apply wp_bind, wp_modify. apply wp_bind, wp_modify. apply wp_bind, wp_modify.
  apply wp_bind, getSpeedRecord_spec. intros r g8 B8 _ _ _ _.
  apply wp_ret, HP; rewrite B8; unfold GameObject_update; simpl_game; rewrite E5, S3.
  - eapply Qle_trans; [exact S1|exact S2].
  - intros H1 H2. pose proof (N1 H1). subst g1. pose proof (N2 H2). subst g2. reflexivity.
Qed.

Lemma frame_speed (i : FrameInput) g (Post : unit -> Game -> Prop) :
  GameInv g -> rPressed i = false ->
  vx (position (bobj (ball g))) + radius (ball g) < inject_Z screenWidth ->
  0 < vx (position (bobj (ball g))) - radius (ball g) ->
  (forall g', speed (bobj (ball g)) <= speed (bobj (ball g')) ->
     (CheckCollisionCircleRec (position (bobj (ball g))) (radius (ball g))
        (toRectangle (leftPaddle g)) = false ->
      CheckCollisionCircleRec (position (bobj (ball g))) (radius (ball g))
        (toRectangle (rightPaddle g)) = false ->
      speed (bobj (ball g')) = speed (bobj (ball g))) ->
     Post tt g') ->
  wp (frame i) Post g.
Proof.
  intros Inv Hr Hs1 Hs2 HP. unfold frame.
  apply wp_bind, readInput_noreset_spec; [exact Inv|exact Hr|].
  intros g1 Inv1 B1 L1 R1.
  apply update_speed; [exact Inv1|rewrite B1; exact Hs1|rewrite B1; exact Hs2|].
  intros g' S Hq. rewrite B1, L1, R1 in Hq. rewrite B1 in S. apply HP; assumption.
Qed.

(** One axis of [Paddle::update]: the displaced coordinate when the paddle
    stays inside with it, the old one otherwise. *)
Lemma accept_axis_eq (a old sz hi : Q) :
  (0 <= a /\ a + sz <= hi ->
   (if Qle_bool 0 a && Qle_bool (a + sz) hi then a else old) = a) /\
  (~ (0 <= a /\ a + sz <= hi) ->
   (if Qle_bool 0 a && Qle_bool (a + sz) hi then a else old) = old).
Proof.
  split.
  - intros [H1 H2]. apply Qle_bool_iff in H1, H2. rewrite H1, H2. reflexivity.
  - intro Hn. destruct (Qle_bool 0 a && Qle_bool (a + sz) hi) eqn:E; [|reflexivity].
    apply Bool.andb_true_iff in E. destruct E as [E1 E2].
    apply Qle_bool_iff in E1, E2. tauto.
Qed.

Lemma serve_versor_resetRound g :
  wp resetRound (fun _ g' => serve_versor_ok (versor (bobj (ball g')))) g.
Proof.
  apply resetRound_spec. intros v g' D B NZ Eb _ _ _ _ _.
  rewrite Eb. exact (conj eq_refl (conj B (conj NZ D))).
Qed.

End GameProofs.

(** ** Proofs about the trajectory predictor *)

Section Predictor.

Abbreviation P := (inject_Z (2 * screenHeight)).
Abbreviation H := (inject_Z screenHeight).

Lemma Qlt_bool_iff (a b : Q) : Qlt_bool a b = true <-> a < b.
Proof.
  unfold Qlt_bool. rewrite Bool.negb_true_iff.
  split; intro Hab.
  - apply Qnot_le_lt. intro Hle. apply Qle_bool_iff in Hle. congruence.
  - destruct (Qle_bool b a) eqn:E; [|reflexivity].
    apply Qle_bool_iff in E. exfalso. apply (Qlt_not_le _ _ Hab E).
Qed.

Lemma Qlt_bool_false (a b : Q) : Qlt_bool a b = false -> b <= a.
Proof.
  unfold Qlt_bool. intro E. apply Bool.negb_false_iff in E.
  apply Qle_bool_iff, E.
Qed.

Lemma Qle_bool_false (a b : Q) : Qle_bool a b = false -> b < a.
Proof.
  intro E. apply Qnot_le_lt. intro Hle. apply Qle_bool_iff in Hle. congruence.
Qed.

Lemma Qtrunc_nonneg (q : Q) :
  0 <= q -> inject_Z (Qtrunc q) <= q /\ q < inject_Z (Qtrunc q) + 1.
Proof.
  intro Hq. unfold Qtrunc.
  replace (Qle_bool 0 q) with true by (symmetry; apply Qle_bool_iff, Hq).
  split; [apply Qfloor_le|].
  pose proof (Qlt_floor q) as Hf. rewrite inject_Z_plus in Hf. exact Hf.
Qed.

Lemma Qtrunc_neg (q : Q) :
  q < 0 -> inject_Z (Qtrunc q) - 1 < q /\ q <= inject_Z (Qtrunc q).
Proof.
  intro Hq. unfold Qtrunc.
  destruct (Qle_bool 0 q) eqn:E.
  { apply Qle_bool_iff in E. exfalso. apply (Qlt_not_le _ _ Hq E). }
  split; [|apply Qle_ceiling].
  pose proof (Qceiling_lt q) as Hc.
  unfold Z.sub in Hc. rewrite inject_Z_plus in Hc. exact Hc.
Qed.

(** The remainder of [fmod], made non-negative, lies in [[0, P)] and differs
    from its argument by a multiple of the period. *)
Lemma ymod_props (r : Q) :
  let m := fmod r P in
  let m' := if Qlt_bool m 0 then m + P else m in
  0 <= m' < P /\ exists k : Z, r == m' + inject_Z k * P.
Proof.
  intros m m'.
  assert (Hr : r == (r / P) * P) by (field; discriminate).
  unfold m', m, fmod.
  destruct (Qlt_le_dec (r / P) 0) as [Hn|Hp].
  - destruct (Qtrunc_neg _ Hn) as [H1 H2].
    set (n := Qtrunc (r / P)) in *.
    set (q := r / P) in *.
    assert (HP : P == 900) by reflexivity.
    destruct (Qlt_bool (r - inject_Z n * P) 0) eqn:E.
    + apply Qlt_bool_iff in E. split.
      * rewrite HP in *. nra.
      * exists (n - 1)%Z. unfold Z.sub. rewrite inject_Z_plus. simpl. ring.
    + apply Qlt_bool_false in E. split.
      * rewrite HP in *. nra.
      * exists n. ring.
  - destruct (Qtrunc_nonneg _ Hp) as [H1 H2].
    set (n := Qtrunc (r / P)) in *.
    set (q := r / P) in *.
    assert (HP : P == 900) by reflexivity.
    assert (Hm : 0 <= r - inject_Z n * P) by (rewrite HP in *; nra).
    destruct (Qlt_bool (r - inject_Z n * P) 0) eqn:E.
    + apply Qlt_bool_iff in E. exfalso. apply (Qlt_not_le _ _ E Hm).
    + split.
      * rewrite HP in *. nra.
      * exists n. ring.
Qed.

Lemma inject_Z_between (j : Z) : -1 < inject_Z j -> inject_Z j < 1 -> j = 0%Z.
Proof. unfold Qlt; simpl; intros; lia. Qed.

Lemma inject_Z_01 (j : Z) : -1 < inject_Z j -> inject_Z j < 2 -> j = 0%Z \/ j = 1%Z.
Proof. unfold Qlt; simpl; intros; lia. Qed.

Lemma tri_unique (r v1 v2 : Q) : tri r v1 -> tri r v2 -> v1 == v2.
Proof.
  intros [B1 [k1 E1]] [B2 [k2 E2]].
  assert (HP : P == 900) by reflexivity.
  assert (HH : H == 450) by reflexivity.
  rewrite HP, HH in *.
  destruct E1 as [E1|E1], E2 as [E2|E2].
  - assert (Hd : v1 - v2 == inject_Z (k2 - k1) * 900)
      by (unfold Z.sub; rewrite inject_Z_plus, inject_Z_opp; lra).
    assert (k2 - k1 = 0)%Z as Hk by (apply inject_Z_between; lra).
    rewrite Hk in Hd. change (inject_Z 0) with 0 in Hd. lra.
  - assert (Hd : v1 + v2 == inject_Z (k2 - k1) * 900)
      by (unfold Z.sub; rewrite inject_Z_plus, inject_Z_opp; lra).
    destruct (inject_Z_01 (k2 - k1)) as [Hk|Hk]; try lra;
      rewrite Hk in Hd; change (inject_Z 0) with 0 in Hd;
      change (inject_Z 1) with 1 in Hd; lra.
  - assert (Hd : v1 + v2 == inject_Z (k1 - k2) * 900)
      by (unfold Z.sub; rewrite inject_Z_plus, inject_Z_opp; lra).
    destruct (inject_Z_01 (k1 - k2)) as [Hk|Hk]; try lra;
      rewrite Hk in Hd; change (inject_Z 0) with 0 in Hd;
      change (inject_Z 1) with 1 in Hd; lra.
  - assert (Hd : v1 - v2 == inject_Z (k1 - k2) * 900)
      by (unfold Z.sub; rewrite inject_Z_plus, inject_Z_opp; lra).
    assert (k1 - k2 = 0)%Z as Hk by (apply inject_Z_between; lra).
    rewrite Hk in Hd. change (inject_Z 0) with 0 in Hd. lra.
Qed.

Lemma tri_compat (r r' v : Q) : r == r' -> tri r v -> tri r' v.
Proof.
  intros E [B [k Hk]]. split; [exact B|]. exists k.
  destruct Hk as [Hk|Hk]; [left|right]; rewrite <- E; exact Hk.
Qed.

Lemma tri_in_range (r : Q) : 0 <= r <= H -> tri r r.
Proof. intros B. split; [exact B|]. exists 0%Z. left. simpl. ring. Qed.

(** The value of [predictBallY] is the triangle wave of the unfolded
    straight-line height. *)
Lemma predictBallY_tri (ball : Ball) (targetX : Q) :
  ~ vx (versor (bobj ball)) == 0 ->
  exists v, predictBallY ball targetX = Some v /\
    tri (vy (position (bobj ball)) + (targetX - vx (position (bobj ball)))
           * (vy (versor (bobj ball)) / vx (versor (bobj ball)))) v.
Proof.
  intro Hx. unfold predictBallY.
  destruct (Qeq_bool (vx (versor (bobj ball))) 0) eqn:E.
  { apply Qeq_bool_iff in E. contradiction. }
  set (r := vy (position (bobj ball)) + (targetX - vx (position (bobj ball)))
           * (vy (versor (bobj ball)) / vx (versor (bobj ball)))).
  destruct (ymod_props r) as [[L U] [k Hk]].
  set (m' := if Qlt_bool (fmod r P) 0 then fmod r P + P else fmod r P) in *.
  assert (HP : P == 900) by reflexivity.
  assert (HH : H == 450) by reflexivity.
  destruct (Qle_bool m' H) eqn:C.
  - apply Qle_bool_iff in C. eexists; split; [reflexivity|].
    split; [split; assumption|]. exists k. left. exact Hk.
  - apply Qle_bool_false in C. eexists; split; [reflexivity|].
    split.
    + rewrite HP, HH in *. lra.
    + exists (k + 1)%Z. right. rewrite inject_Z_plus. rewrite Hk. simpl. ring.
Qed.

Lemma spec_predictY_tri (x0 y0 dirx diry targetX : Q) :
  tri (y0 + (targetX - x0) * (diry / dirx)) (spec_predictY x0 y0 dirx diry targetX).
Proof.
  unfold spec_predictY.
  set (r := y0 + (targetX - x0) * (diry / dirx)).
  assert (Hr : r == (r / P) * P) by (field; discriminate).
  pose proof (Qfloor_le (r / P)) as F1.
  pose proof (Qlt_floor (r / P)) as F2. rewrite inject_Z_plus in F2. change (inject_Z 1) with 1 in F2.
  set (n := Qfloor (r / P)) in *.
  set (q := r / P) in *.
  assert (HP : P == 900) by reflexivity.
  assert (HH : H == 450) by reflexivity.
  assert (B : 0 <= r - P * inject_Z n < P) by (rewrite HP in *; nra).
  destruct (Qle_bool (r - P * inject_Z n) H) eqn:C.
  - apply Qle_bool_iff in C. split; [lra|].
    exists n. left. ring.
  - apply Qle_bool_false in C. split; [rewrite HP, HH in *; lra|].
    exists (n + 1)%Z. right. rewrite inject_Z_plus. ring.
Qed.

(** One step of the literal simulation: the unfolded height seen from the
    state after a bounce is the reflection of the one before. *)
Lemma sim_bounce_height (targetX x y dirx diry : Q) :
  ~ dirx == 0 -> ~ diry == 0 ->
  let wall := if Qlt_bool 0 diry then H else 0 in
  let tw := (wall - y) / diry in
  wall + - diry * ((targetX - (x + dirx * tw)) / dirx)
    == 2 * wall - (y + diry * ((targetX - x) / dirx)).
Proof. intros Hx Hy wall tw. unfold tw. field. split; assumption. Qed.

Lemma sim_sound (targetX dirx : Q) (Hx : ~ dirx == 0) :
  forall fuel x y diry v,
    0 <= y <= H -> 0 <= (targetX - x) / dirx ->
    wall_bounce_sim fuel targetX x y dirx diry = Some v ->
    tri (y + diry * ((targetX - x) / dirx)) v.
Proof.
  assert (HH : H == 450) by reflexivity.
  induction fuel as [|fuel IH]; intros x y diry v By Htt Hsim;
    set (tt := (targetX - x) / dirx) in *.
  all: cbn [wall_bounce_sim] in Hsim; fold tt in Hsim.
  all: set (wall := if Qlt_bool 0 diry then H else 0) in *;
       set (tw := (wall - y) / diry) in *.
  all: destruct (Qeq_bool diry 0 || Qle_bool tt tw) eqn:C.
  1, 3:
    injection Hsim as <-; apply tri_in_range;
    apply Bool.orb_true_iff in C; destruct C as [C|C];
    [ apply Qeq_bool_iff in C; rewrite C; lra
    | apply Qle_bool_iff in C;
      assert (Hd : ~ diry == 0 -> diry * tw == wall - y)
        by (intro Hd; unfold tw; field; exact Hd);
      unfold wall in *; destruct (Qlt_bool 0 diry) eqn:D;
      [ apply Qlt_bool_iff in D;
        assert (Hw := Hd ltac:(lra)); rewrite HH in *; nra
      | apply Qlt_bool_false in D;
        destruct (Qeq_dec diry 0) as [Z0|Z0];
        [ rewrite Z0; lra
        | assert (Hw := Hd Z0);
          assert (Dn : diry < 0) by (apply Qle_lt_or_eq in D; tauto);
          rewrite HH in *; nra ] ] ].
  - discriminate.
  - apply Bool.orb_false_iff in C. destruct C as [C1 C2].
    apply Qeq_bool_neq in C1. apply Qle_bool_false in C2.
    assert (Hw : 0 <= wall <= H)
      by (unfold wall; destruct (Qlt_bool 0 diry); rewrite HH; lra).
    assert (Htt' : 0 <= (targetX - (x + dirx * tw)) / dirx).
    { assert (E : (targetX - (x + dirx * tw)) / dirx == tt - tw)
        by (unfold tt; field; exact Hx).
      rewrite E. lra. }
    pose proof (IH _ _ _ _ Hw Htt' Hsim) as T.
    pose proof (sim_bounce_height targetX x y dirx diry Hx C1) as E.
    cbv zeta in E. fold wall tw tt in E.
    apply (tri_compat _ _ _ E) in T.
    destruct T as [B [k Hk]]. split; [exact B|].
    unfold wall in Hk; destruct (Qlt_bool 0 diry).
    + exists (1 - k)%Z. unfold Z.sub. rewrite inject_Z_plus, inject_Z_opp.
      change (inject_Z 1) with 1.
      destruct Hk as [Hk|Hk]; [right|left]; rewrite HH in *;
        change P with (2 * 450) in Hk |- *; lra.
    + exists (- k)%Z. rewrite inject_Z_opp.
      destruct Hk as [Hk|Hk]; [right|left]; lra.
Qed.

Lemma sim_complete (targetX dirx : Q) (Hx : ~ dirx == 0) :
  forall n x y diry,
    0 <= y <= H -> 0 <= (targetX - x) / dirx ->
    Qabs diry * ((targetX - x) / dirx)
      <= inject_Z (Z.of_nat n) * H + (if Qlt_bool 0 diry then H - y else y) ->
    exists v, wall_bounce_sim n targetX x y dirx diry = Some v.
Proof.
  assert (HH : H == 450) by reflexivity.
  induction n as [|n IH]; intros x y diry By Htt Hm;
    set (tt := (targetX - x) / dirx) in *;
    cbn [wall_bounce_sim]; fold tt;
    set (wall := if Qlt_bool 0 diry then H else 0) in *;
    set (tw := (wall - y) / diry) in *;
    (destruct (Qeq_bool diry 0 || Qle_bool tt tw) eqn:C; [eexists; reflexivity|]);
    apply Bool.orb_false_iff in C; destruct C as [C1 C2];
    apply Qeq_bool_neq in C1; apply Qle_bool_false in C2;
    assert (Hd : diry * tw == wall - y) by (unfold tw; field; exact C1);
    unfold wall in *; destruct (Qlt_bool 0 diry) eqn:D.
  - apply Qlt_bool_iff in D. rewrite Qabs_pos in Hm by lra.
    change (inject_Z (Z.of_nat 0)) with 0 in Hm. exfalso. nra.
  - apply Qlt_bool_false in D.
    assert (Dn : diry < 0) by (apply Qle_lt_or_eq in D; tauto).
    rewrite Qabs_neg in Hm by lra.
    change (inject_Z (Z.of_nat 0)) with 0 in Hm. exfalso. nra.
  - apply Qlt_bool_iff in D. rewrite Qabs_pos in Hm by lra.
    rewrite Nat2Z.inj_succ in Hm. unfold Z.succ in Hm.
    rewrite inject_Z_plus in Hm. change (inject_Z 1) with 1 in Hm.
    assert (E : (targetX - (x + dirx * tw)) / dirx == tt - tw)
      by (unfold tt; field; exact Hx).
    apply IH.
    + rewrite HH; lra.
    + rewrite E. lra.
    + rewrite E. assert (D' : Qlt_bool 0 (- diry) = false)
        by (apply Bool.not_true_iff_false; rewrite Qlt_bool_iff; lra).
      rewrite D', Qabs_neg by lra. rewrite HH in *. nra.
  - apply Qlt_bool_false in D.
    assert (Dn : diry < 0) by (apply Qle_lt_or_eq in D; tauto).
    rewrite Qabs_neg in Hm by lra.
    rewrite Nat2Z.inj_succ in Hm. unfold Z.succ in Hm.
    rewrite inject_Z_plus in Hm. change (inject_Z 1) with 1 in Hm.
    assert (E : (targetX - (x + dirx * tw)) / dirx == tt - tw)
      by (unfold tt; field; exact Hx).
    apply IH.
    + rewrite HH; lra.
    + rewrite E. lra.
    + rewrite E. assert (D' : Qlt_bool 0 (- diry) = true)
        by (rewrite Qlt_bool_iff; lra).
      rewrite D', Qabs_pos by lra. rewrite HH in *. nra.
Qed.

Lemma sim_fuel_bound (D : Q) :
  0 <= D -> D <= inject_Z (Z.of_nat (Z.to_nat (Qceiling (D / H)))) * H.
Proof.
  intro HD.
  assert (Hr : D == (D / H) * H) by (field; discriminate).
  pose proof (Qle_ceiling (D / H)) as C.
  set (c := Qceiling (D / H)) in *.
  assert (Z1 : (c <= Z.of_nat (Z.to_nat c))%Z) by lia.
  rewrite Zle_Qle in Z1.
  set (q := D / H) in *.
  assert (HH : H == 450) by reflexivity.
  rewrite HH in *. nra.
Qed.

End Predictor.

(** ** Claims about the trajectory predictor *)

(** C1: [predictBallY] computes the spec's algorithm: straight-line height
    [y_raw], its non-negative remainder modulo [2 * screenHeight], reflected
    when above [screenHeight]; the division by [versor.x] is undefined at 0.
    On the spec's example (ball at (400,225), direction (1,0.5), target 750)
    it returns 400. *)
Theorem predictBallY_spec_algorithm :
  (forall (ball : Ball) (targetX : Q),
     opt_Qeq (predictBallY ball targetX)
       (if Qeq_bool (vx (versor (bobj ball))) 0 then None
        else Some (spec_predictY (vx (position (bobj ball))) (vy (position (bobj ball)))
                    (vx (versor (bobj ball))) (vy (versor (bobj ball))) targetX)))
  /\ opt_Qeq (predictBallY (ball_at 400 225 1 (1#2)) 750) (Some 400).
Proof.
  split; [|reflexivity].
  intros ball targetX.
  destruct (Qeq_bool (vx (versor (bobj ball))) 0) eqn:E.
  - unfold predictBallY. rewrite E. exact I.
  - apply Qeq_bool_neq in E.
    destruct (predictBallY_tri ball targetX E) as [v [Hv T]].
    rewrite Hv. simpl.
    exact (tri_unique _ _ _ T (spec_predictY_tri _ _ _ _ _)).
Qed.

(** C2: from a height inside the screen, with a non-zero horizontal
    direction and the target line ahead of the ball, the literal simulation
    of the straight-line motion reflected by the walls [y = 0] and
    [y = screenHeight] reaches the target line after finitely many bounces,
    at the height [predictBallY] returns; and every run of the simulation
    that reaches the line, whatever its number of bounces, agrees with it. *)
Theorem predictBallY_refines_wall_bounce (ball : Ball) (targetX : Q)
  (Hy : 0 <= vy (position (bobj ball)) <= inject_Z screenHeight)
  (Hx : ~ vx (versor (bobj ball)) == 0)
  (Hahead : 0 <= (targetX - vx (position (bobj ball))) / vx (versor (bobj ball))) :
  (exists fuel v p,
     wall_bounce_sim fuel targetX (vx (position (bobj ball))) (vy (position (bobj ball)))
       (vx (versor (bobj ball))) (vy (versor (bobj ball))) = Some v
     /\ predictBallY ball targetX = Some p /\ p == v)
  /\ (forall fuel v,
     wall_bounce_sim fuel targetX (vx (position (bobj ball))) (vy (position (bobj ball)))
       (vx (versor (bobj ball))) (vy (versor (bobj ball))) = Some v ->
     exists p, predictBallY ball targetX = Some p /\ p == v).
Proof.
  set (x0 := vx (position (bobj ball))) in *.
  set (y0 := vy (position (bobj ball))) in *.
  set (dx := vx (versor (bobj ball))) in *.
  set (dy := vy (versor (bobj ball))) in *.
  destruct (predictBallY_tri ball targetX Hx) as [p [Hp Tp]].
  fold x0 y0 dx dy in Tp.
  assert (E : y0 + (targetX - x0) * (dy / dx) == y0 + dy * ((targetX - x0) / dx))
    by (field; exact Hx).
  apply (tri_compat _ _ _ E) in Tp.
  assert (Agree : forall fuel v,
     wall_bounce_sim fuel targetX x0 y0 dx dy = Some v -> p == v).
  { intros fuel v Hs.
    exact (tri_unique _ _ _ Tp (sim_sound targetX dx Hx fuel x0 y0 dy v Hy Hahead Hs)). }
  split.
  - set (D := Qabs dy * ((targetX - x0) / dx)).
    assert (HD : 0 <= D) by (unfold D; apply Qmult_le_0_compat; [apply Qabs_nonneg|exact Hahead]).
    pose proof (sim_fuel_bound D HD) as Bd.
    set (n := Z.to_nat (Qceiling (D / inject_Z screenHeight))) in Bd.
    assert (Hw : 0 <= (if Qlt_bool 0 dy then inject_Z screenHeight - y0 else y0))
      by (destruct (Qlt_bool 0 dy); lra).
    assert (Hm : D <= inject_Z (Z.of_nat n) * inject_Z screenHeight
                      + (if Qlt_bool 0 dy then inject_Z screenHeight - y0 else y0))
      by lra.
    destruct (sim_complete targetX dx Hx n x0 y0 dy Hy Hahead Hm) as [v Hv].
    exists n, v, p. repeat split; [exact Hv | exact Hp | exact (Agree _ _ Hv)].
  - intros fuel v Hs. exists p. split; [exact Hp | exact (Agree _ _ Hs)].
Qed.

(** C3: whenever [versor.x] is non-zero, [predictBallY] returns a height in
    [[0, screenHeight]], for every ball position and target. *)
Theorem predictBallY_within_screen (ball : Ball) (targetX : Q)
  (Hx : ~ vx (versor (bobj ball)) == 0) :
  exists v, predictBallY ball targetX = Some v /\ 0 <= v <= inject_Z screenHeight.
Proof.
  destruct (predictBallY_tri ball targetX Hx) as [v [Hv [B _]]].
  exists v. split; assumption.
Qed.

Lemma predictBallY_refines_wall_bounce_witness :
  let b := ball_at 400 225 1 (3#7) in
  (0 <= vy (position (bobj b)) <= inject_Z screenHeight) /\
  ~ vx (versor (bobj b)) == 0 /\
  0 <= (5000 - vx (position (bobj b))) / vx (versor (bobj b)) /\
  exists fuel v p,
     wall_bounce_sim fuel 5000 (vx (position (bobj b))) (vy (position (bobj b)))
       (vx (versor (bobj b))) (vy (versor (bobj b))) = Some v
     /\ predictBallY b 5000 = Some p /\ p == v.
Proof.
  intro b.
  assert (H1 : 0 <= vy (position (bobj b)) <= inject_Z screenHeight)
    by (split; vm_compute; discriminate).
  assert (H2 : ~ vx (versor (bobj b)) == 0) by (vm_compute; discriminate).
  assert (H3 : 0 <= (5000 - vx (position (bobj b))) / vx (versor (bobj b)))
    by (vm_compute; discriminate).
  split; [exact H1|]. split; [exact H2|]. split; [exact H3|].
  exact (proj1 (predictBallY_refines_wall_bounce b 5000 H1 H2 H3)).
Defined.

Lemma predictBallY_within_screen_witness :
  ~ vx (versor (bobj (ball_at 400 225 1 (1#2)))) == 0 /\
  exists v, predictBallY (ball_at 400 225 1 (1#2)) 750 = Some v
            /\ 0 <= v <= inject_Z screenHeight.
Proof.
  assert (H1 : ~ vx (versor (bobj (ball_at 400 225 1 (1#2)))) == 0)
    by (vm_compute; discriminate).
  split; [exact H1|].
  exact (predictBallY_within_screen (ball_at 400 225 1 (1#2)) 750 H1).
Defined.

(** ** Claims about the game *)

(** C4: in every reachable state the ball's [versor.x] is exactly [1] or
    [-1] (the serves set it to [RIGHT], a paddle hit multiplies it by [-1],
    nothing else writes it); hence [predictBallY] is defined at every target
    for the current ball, and a frame from a reachable state never performs
    an undefined division, in particular none by [ball.versor.x] at any call
    of [predictBallY]. *)
Theorem ball_versor_x_unit `{Platform} (g : Game) (Hr : reachable g) :
  (vx (versor (bobj (ball g))) == 1 \/ vx (versor (bobj (ball g))) == -1) /\
  (forall targetX : Q, exists y, predictBallY (ball g) targetX = Some y) /\
  (forall i : FrameInput, exists g', frame i g = Some (tt, g')).
Proof.
  pose proof (reachable_GameInv g Hr) as Inv.
  split; [exact (proj1 Inv)|]. split.
  - intro targetX. apply predictBallY_defined, dir_ok_nonzero, Inv.
  - intro i. exact (reachable_frame_total g i Hr).
Qed.

(** C5: when the ball touches the paddle (and the paddle has a non-zero
    height, as in every reachable state), [handlePaddleBallCollision]
    negates [versor.x], sets [versor.y] to the hit offset
    [(ball.position.y - paddleCenter.y) / (paddle.size.y / 2)], adds
    [20 * (speed / 400) * |versor.y|] with the new [versor.y] to the speed,
    and changes nothing else. *)
Theorem handlePaddleBallCollision_on_hit `{Platform} (isLeftPaddle : bool) (g : Game)
  (Hhit : CheckCollisionCircleRec (position (bobj (ball g))) (radius (ball g))
            (toRectangle (if isLeftPaddle then leftPaddle g else rightPaddle g)) = true)
  (Hsize : ~ vy (size (if isLeftPaddle then leftPaddle g else rightPaddle g)) / 2 == 0) :
  let paddle := if isLeftPaddle then leftPaddle g else rightPaddle g in
  let o := bobj (ball g) in
  let versor_y := (vy (position o) - vy (getCenter paddle)) / (vy (size paddle) / 2) in
  handlePaddleBallCollision isLeftPaddle g =
  Some (tt, set_ball (mkBall (mkGameObject (position o)
                                (mkVector2 (vx (versor o) * -1) versor_y)
                                (speed o + 20 * (speed o / 400) * Qabs versor_y))
                             (radius (ball g))) g).
Proof.
  cbv zeta. rewrite (handlePaddleBallCollision_hit_eq isLeftPaddle g Hhit).
  destruct (Qeq_bool _ 0) eqn:E; [|reflexivity].
  apply Qeq_bool_iff in E. contradiction.
Qed.

(** C6 (as corrected): [Paddle::update] keeps a paddle that is inside the
    screen inside it; on each axis it takes the displaced coordinate when
    the paddle stays inside with it and keeps the old coordinate otherwise
    (no clamping); both paddles are inside the screen in every reachable
    state. *)
Theorem Paddle_update_keeps_inside `{Platform} :
  (forall (deltaTime : Q) (p : Paddle),
     paddle_inside p -> paddle_inside (Paddle_update deltaTime p)) /\
  (forall (deltaTime : Q) (p : Paddle),
     let o := pobj p in
     let np := vadd (position o)
                 (vscale (vscale (normaliseVersor (versor o)) (speed o)) deltaTime) in
     let p' := Paddle_update deltaTime p in
     (0 <= vx np /\ vx np + vx (size p) <= inject_Z screenWidth ->
        vx (position (pobj p')) = vx np) /\
     (~ (0 <= vx np /\ vx np + vx (size p) <= inject_Z screenWidth) ->
        vx (position (pobj p')) = vx (position o)) /\
     (0 <= vy np /\ vy np + vy (size p) <= inject_Z screenHeight ->
        vy (position (pobj p')) = vy np) /\
     (~ (0 <= vy np /\ vy np + vy (size p) <= inject_Z screenHeight) ->
        vy (position (pobj p')) = vy (position o))) /\
  (forall g : Game, reachable g ->
     paddle_inside (leftPaddle g) /\ paddle_inside (rightPaddle g)).
Proof.
  split; [exact Paddle_update_inside|]. split.
  - intros deltaTime p. cbv zeta. unfold Paddle_update. cbv zeta.
    cbn [position pobj vx vy].
    destruct (accept_axis_eq
      (vx (vadd (position (pobj p))
             (vscale (vscale (normaliseVersor (versor (pobj p))) (speed (pobj p))) deltaTime)))
      (vx (position (pobj p))) (vx (size p)) (inject_Z screenWidth)) as [X1 X2].
    destruct (accept_axis_eq
      (vy (vadd (position (pobj p))
             (vscale (vscale (normaliseVersor (versor (pobj p))) (speed (pobj p))) deltaTime)))
      (vy (position (pobj p))) (vy (size p)) (inject_Z screenHeight)) as [Y1 Y2].
    exact (conj X1 (conj X2 (conj Y1 Y2))).
  - intros g Hr. destruct (reachable_GameInv g Hr) as (_ & _ & _ & _ & I1 & I2).
    exact (conj I1 I2).
Qed.

(** C7: both resets set the speed to exactly 400; a paddle hit never lowers
    a non-negative speed; a wall hit keeps it; and a frame from a reachable
    state without the restart key and without scoring never lowers the
    speed, and keeps it when the ball touches neither paddle. *)
Theorem ball_speed_monotone `{Platform} :
  (forall g : Game, wp resetRound (fun _ g' => speed (bobj (ball g')) = 400) g) /\
  (forall g : Game, wp resetGame (fun _ g' => speed (bobj (ball g')) = 400) g) /\
  (forall (isLeftPaddle : bool) (g g' : Game),
     handlePaddleBallCollision isLeftPaddle g = Some (tt, g') ->
     0 <= speed (bobj (ball g)) -> speed (bobj (ball g)) <= speed (bobj (ball g'))) /\
  (forall g g' : Game, handleWallBallCollision g = Some (tt, g') ->
     speed (bobj (ball g')) = speed (bobj (ball g))) /\
  (forall (g : Game) (i : FrameInput) (g' : Game),
     reachable g -> frame i g = Some (tt, g') -> rPressed i = false ->
     vx (position (bobj (ball g))) + radius (ball g) < inject_Z screenWidth ->
     0 < vx (position (bobj (ball g))) - radius (ball g) ->
     speed (bobj (ball g)) <= speed (bobj (ball g')) /\
     (CheckCollisionCircleRec (position (bobj (ball g))) (radius (ball g))
        (toRectangle (leftPaddle g)) = false ->
      CheckCollisionCircleRec (position (bobj (ball g))) (radius (ball g))
        (toRectangle (rightPaddle g)) = false ->
      speed (bobj (ball g')) = speed (bobj (ball g)))).
Proof.
  split; [|split; [|split; [|split]]].
  - intro g. apply resetRound_spec. intros v g' _ _ _ Eb _ _ _ _ _. rewrite Eb. reflexivity.
  - intro g. apply resetGame_spec. intros v g' _ _ _ Eb _ _ _ _ _ _. rewrite Eb. reflexivity.
  - exact handlePaddleBallCollision_speed.
  - exact handleWallBallCollision_speed.
  - intros g i g' Hr Hf HR Hs1 Hs2.
    apply (wp_inv (frame i) (fun _ g2 =>
             speed (bobj (ball g)) <= speed (bobj (ball g2)) /\
             (CheckCollisionCircleRec (position (bobj (ball g))) (radius (ball g))
                (toRectangle (leftPaddle g)) = false ->
              CheckCollisionCircleRec (position (bobj (ball g))) (radius (ball g))
                (toRectangle (rightPaddle g)) = false ->
              speed (bobj (ball g2)) = speed (bobj (ball g)))) g tt g'); [|exact Hf].
    apply frame_speed; [apply reachable_GameInv, Hr|exact HR|exact Hs1|exact Hs2|].
    intros g2 S E. exact (conj S E).
Qed.

(** C8: when the ball reaches the right edge, [handlePointScoring] is one
    left-score increment, one random draw (the score sound) and one
    [resetRound], adding one to the left score only and serving the ball
    again; when it reaches the left edge instead, the same with the right
    score; otherwise it changes nothing. *)
Theorem handlePointScoring_scores `{Platform} (g : Game) :
  let x := vx (position (bobj (ball g))) in
  let r := radius (ball g) in
  (inject_Z screenWidth <= x + r ->
     handlePointScoring g = (incrementScore true ;;; GetRandomValue 0 1 ;;; resetRound) g /\
     wp handlePointScoring (fun _ g' =>
       scoreLeft g' = (scoreLeft g + 1)%Z /\ scoreRight g' = scoreRight g /\
       exists v, ball g' = served_ball v r) g) /\
  (x + r < inject_Z screenWidth -> x - r <= 0 ->
     handlePointScoring g = (incrementScore false ;;; GetRandomValue 0 1 ;;; resetRound) g /\
     wp handlePointScoring (fun _ g' =>
       scoreLeft g' = scoreLeft g /\ scoreRight g' = (scoreRight g + 1)%Z /\
       exists v, ball g' = served_ball v r) g) /\
  (x + r < inject_Z screenWidth -> 0 < x - r -> handlePointScoring g = Some (tt, g)).
Proof.
  cbv zeta. split; [|split].
  - intro Hx. pose proof (handlePointScoring_right g Hx) as E. split; [exact E|].
    apply (wp_same _ _ _ _ E). unfold incrementScore. wp_run.
    apply GetRandomValue_spec. intros _.
    apply resetRound_spec. intros v g' _ _ _ Eb _ _ _ El Er.
    rewrite El, Er, Eb. simpl_game. split; [reflexivity|]. split; [reflexivity|].
    exists v. reflexivity.
  - intros Hx1 Hx2. pose proof (handlePointScoring_left g Hx1 Hx2) as E. split; [exact E|].
    apply (wp_same _ _ _ _ E). unfold incrementScore. wp_run.
    apply GetRandomValue_spec. intros _.
    apply resetRound_spec. intros v g' _ _ _ Eb _ _ _ El Er.
    rewrite El, Er, Eb. simpl_game. split; [reflexivity|]. split; [reflexivity|].
    exists v. reflexivity.
  - exact (handlePointScoring_noscore g).
Qed.

(** C9: [getCurrentVerticalKey] gives no key with both keys released, the
    held key when exactly one is held, and with both held the key other
    than the recorded sole key, which it keeps recorded. Over frames: press
    up, press down too, release up, release both gives up, down, down, no
    key; releasing the newer key while the older one stays held falls back
    to the older one. *)
Theorem getCurrentVerticalKey_priority :
  (forall k : Z, verticalKeyStep k false false = ((-1)%Z, (-1)%Z)) /\
  (forall k : Z, verticalKeyStep k true false = (KEY_UP, KEY_UP)) /\
  (forall k : Z, verticalKeyStep k false true = (KEY_DOWN, KEY_DOWN)) /\
  verticalKeyStep KEY_UP true true = (KEY_UP, KEY_DOWN) /\
  verticalKeyStep KEY_DOWN true true = (KEY_DOWN, KEY_UP) /\
  (forall g : Game, exists g',
     key_trace [(true, false); (true, true); (false, true); (false, false)] g
     = Some ([KEY_UP; KEY_DOWN; KEY_DOWN; (-1)%Z], g')) /\
  (forall g : Game, exists g',
     key_trace [(true, false); (true, true); (true, false)] g
     = Some ([KEY_UP; KEY_DOWN; KEY_UP], g')) /\
  (forall g : Game, exists g',
     key_trace [(false, true); (true, true); (false, true)] g
     = Some ([KEY_DOWN; KEY_UP; KEY_DOWN], g')).
Proof.
  split; [reflexivity|]. split; [reflexivity|]. split; [reflexivity|].
  split; [reflexivity|]. split; [reflexivity|].
  split; [|split]; intro g; eexists; reflexivity.
Qed.

(** C10: every serve, at [init], at [resetRound] and at [resetGame], sets
    [versor.x] to [RIGHT] = 1 whoever scored, and [versor.y] to
    [GetRandomValue(-1000, 1000) / 1000], in [[-1, 1]], with a draw of 0
    replaced by [-1], so never 0. *)
Theorem serve_direction `{Platform} :
  wp init (fun _ g' => serve_versor_ok (versor (bobj (ball g')))) game_default /\
  (forall g : Game, wp resetRound (fun _ g' => serve_versor_ok (versor (bobj (ball g')))) g) /\
  (forall g : Game, wp resetGame (fun _ g' => serve_versor_ok (versor (bobj (ball g')))) g).
Proof.
  split; [|split].
  - unfold init. wp_run. apply randomValidVersor_spec. intros v B NZ Ev. wp_run.
    simpl_game. refine (conj eq_refl (conj B (conj NZ _))).
    rewrite Ev. apply randomValidVersor_draw.
  - exact serve_versor_resetRound.
  - intro g. apply resetGame_spec. intros v g' D B NZ Eb _ _ _ _ _ _.
    rewrite Eb. exact (conj eq_refl (conj B (conj NZ D))).
Qed.

(** ** Witnesses and counterexamples on the sample platform *)

Lemma ball_versor_x_unit_witness :
  @reachable sample_platform sample_init_state /\
  (vx (versor (bobj (ball sample_init_state))) == 1 \/
   vx (versor (bobj (ball sample_init_state))) == -1) /\
  (forall targetX : Q, exists y, predictBallY (ball sample_init_state) targetX = Some y) /\
  (forall i : FrameInput, exists g', @frame sample_platform i sample_init_state = Some (tt, g')).
Proof.
  assert (R : @reachable sample_platform sample_init_state)
    by (apply reachable_init; vm_compute; reflexivity).
  split; [exact R|exact (@ball_versor_x_unit sample_platform sample_init_state R)].
Defined.

Lemma handlePaddleBallCollision_on_hit_witness :
  let g := sample_hit_state in
  raylib_CheckCollisionCircleRec (position (bobj (ball g))) (radius (ball g))
    (toRectangle (leftPaddle g)) = true /\
  ~ vy (size (leftPaddle g)) / 2 == 0 /\
  exists g', @handlePaddleBallCollision sample_platform true g = Some (tt, g') /\
    vx (versor (bobj (ball g'))) == 1 /\ vy (versor (bobj (ball g'))) == 1 # 10 /\
    speed (bobj (ball g')) == 402.
Proof.
  cbv zeta.
  assert (H1 : @CheckCollisionCircleRec sample_platform
                 (position (bobj (ball sample_hit_state))) (radius (ball sample_hit_state))
                 (toRectangle (if true then leftPaddle sample_hit_state
                               else rightPaddle sample_hit_state)) = true)
    by (vm_compute; reflexivity).
  assert (H2 : ~ vy (size (if true then leftPaddle sample_hit_state
                           else rightPaddle sample_hit_state)) / 2 == 0)
    by (vm_compute; discriminate).
  split; [exact H1|]. split; [exact H2|].
  eexists. split;
    [exact (@handlePaddleBallCollision_on_hit sample_platform true sample_hit_state H1 H2)|].
  vm_compute. split; [reflexivity|split; reflexivity].
Defined.

(** C6: a paddle that starts partly above the top edge ([y = -10]) is
    still partly outside the screen after [Paddle::update]: the claim fails
    for paddle states that are outside the screen to begin with. *)
Lemma Paddle_update_can_end_outside :
  let p := mkPaddle (mkGameObject (mkVector2 50 (-10)) (mkVector2 0 0) 300)
                    (mkVector2 10 100) in
  ~ paddle_inside (@Paddle_update sample_platform (1 # 60) p).
Proof.
  cbv zeta. unfold paddle_inside. intros (_ & _ & Y & _).
  apply Y. vm_compute. reflexivity.
Qed.

(** ** Further proofs about the game *)

Section GameExtra.
Context `{Platform}.

Lemma Qtrunc_ge (z : Z) (q : Q) : inject_Z z <= q -> (z <= Qtrunc q)%Z.
Proof.
  intro Hz. destruct (Qlt_le_dec q 0) as [Hn|Hp].
  - destruct (Qtrunc_neg q Hn) as [_ H2]. rewrite Zle_Qle. lra.
  - destruct (Qtrunc_nonneg q Hp) as [_ H2].
    assert (E : inject_Z (Qtrunc q) + 1 == inject_Z (Qtrunc q + 1))
      by (rewrite inject_Z_plus; reflexivity).
    assert (inject_Z z < inject_Z (Qtrunc q + 1)) by (rewrite <- E; lra).
    rewrite <- Zlt_Qlt in *. lia.
Qed.

Lemma Qtrunc_le (z : Z) (q : Q) : 0 <= q -> q <= inject_Z z -> (Qtrunc q <= z)%Z.
Proof.
  intros Hq Hz. destruct (Qtrunc_nonneg q Hq) as [H1 _]. rewrite Zle_Qle. lra.
Qed.

Lemma normaliseVersor_vx0 (v : Vector2) : vx v == 0 -> vx (normaliseVersor v) == 0.
Proof.
  intro Hv. unfold normaliseVersor. set (len := sqrtf _).
  destruct (Qeq_bool len 0); cbn [vx vy]; [reflexivity|].
  rewrite Hv. unfold Qdiv. apply Qmult_0_l.
Qed.

Lemma normaliseVersor_vy0 (v : Vector2) : vy v == 0 -> vy (normaliseVersor v) == 0.
Proof.
  intro Hv. unfold normaliseVersor. set (len := sqrtf _).
  destruct (Qeq_bool len 0); cbn [vx vy]; [reflexivity|].
  rewrite Hv. unfold Qdiv. apply Qmult_0_l.
Qed.

Lemma Paddle_update_x (deltaTime : Q) (p : Paddle) :
  vx (versor (pobj p)) == 0 ->
  vx (position (pobj (Paddle_update deltaTime p))) == vx (position (pobj p)).
Proof.
  intro Hv. unfold Paddle_update. cbv zeta. cbn [position pobj vx vy vadd vscale].
  destruct (_ && _); [|reflexivity].
  rewrite (normaliseVersor_vx0 _ Hv). ring.
Qed.


Lemma getSpeedRecord_false_spec g (Post : Z -> Game -> Prop) :
  (forall r, (currentSpeedRecord g <= r)%Z ->
     (0 <= speed (bobj (ball g)) -> (float_to_int (speed (bobj (ball g))) <= r)%Z) ->
     (0 <= speed (bobj (ball g)) -> speed (bobj (ball g)) < inject_Z r + 1) ->
     Post r (set_currentSpeedRecord r g)) ->
  wp (getSpeedRecord false) Post g.
Proof.
  intro HP. unfold getSpeedRecord. wp_run.
  - apply Qlt_bool_iff in Heqb. apply HP.
    + apply Qtrunc_ge. lra.
    + intros _. lia.
    + intro Hs. apply (Qtrunc_nonneg _ Hs).
  - apply Qlt_bool_false in Heqb.
    replace g with (set_currentSpeedRecord (currentSpeedRecord g) g) at 2
      by (destruct g; reflexivity).
    apply HP; [lia|..]; intro Hs.
    + apply Qtrunc_le; assumption.
    + lra.
Qed.

Lemma predictTarget_range g (Post : Q -> Game -> Prop) :
  ~ vx (versor (bobj (ball g))) == 0 -> size (rightPaddle g) = mkVector2 10 100 ->
  (forall v, -50 <= v <= 400 -> Post v g) -> wp predictTarget Post g.
Proof.
  intros Hx Hs HP. unfold predictTarget. apply wp_bind, wp_get. cbv beta zeta.
  destruct (predictBallY_tri (ball g)
              (vx (position (pobj (rightPaddle g))) + vx (size (rightPaddle g)) / 2) Hx)
    as [p [Hp [[B1 B2] _]]].
  rewrite Hp. apply wp_ret, HP. rewrite Hs. cbn [vy].
  assert (E : (100 : Q) / 2 == 50) by reflexivity. rewrite E.
  assert (B3 : p <= 450) by exact B2. split; lra.
Qed.

Lemma handleAIPaddleMovement_ext (resetFunction : bool) g (Post : unit -> Game -> Prop) :
  ~ vx (versor (bobj (ball g))) == 0 -> size (rightPaddle g) = mkVector2 10 100 ->
  pred_ok g ->
  (forall g', ball g' = ball g -> leftPaddle g' = leftPaddle g ->
     scoreLeft g' = scoreLeft g -> scoreRight g' = scoreRight g ->
     activeKey g' = activeKey g -> currentSpeedRecord g' = currentSpeedRecord g ->
     rng g' = rng g -> pred_ok g' ->
     (rightPaddle g' = rightPaddle g \/
      (resetFunction = false /\ exists ty, rightPaddle g' =
         mkPaddle (pointTowards (mkVector2 (vx (position (pobj (rightPaddle g)))) ty)
                                (pobj (rightPaddle g))) (size (rightPaddle g)))) ->
     Post tt g') ->
  wp (handleAIPaddleMovement resetFunction) Post g.
Proof.
  intros Hx Hs Hp HP. unfold handleAIPaddleMovement. wp_run.
  all: repeat (apply predictTarget_range; simpl_game; [assumption|assumption|];
               intros ? ?; wp_run).
  all: apply HP; simpl_game; try reflexivity.
  all: first
    [ unfold pred_ok; simpl_game; intros w Ew;
      first [injection Ew as <-; assumption | apply Hp; exact Ew]
    | left; reflexivity
    | right; split; [reflexivity|];
      destruct (Qeq_bool (vx (versor (bobj (ball g)))) (inject_Z LEFT));
      eexists; reflexivity ].
Qed.

Lemma ExtInv_transfer g g' :
  ExtInv g -> radius (ball g') = radius (ball g) ->
  leftPaddle g' = leftPaddle g -> rightPaddle g' = rightPaddle g ->
  (scoreLeft g <= scoreLeft g')%Z -> (scoreRight g <= scoreRight g')%Z ->
  activeKey g' = activeKey g -> pred_ok g' -> ExtInv g'.
Proof.
  intros (R & S1 & S2 & V1 & V2 & X1 & X2 & L & Rs & K & _) Er El Erp Esl Esr Ek Hp.
  unfold ExtInv. rewrite Er, El, Erp, Ek.
  refine (conj R (conj S1 (conj S2 (conj V1 (conj V2 (conj X1 (conj X2
           (conj _ (conj _ (conj K Hp)))))))))); lia.
Qed.

Lemma ExtInv_paddle_update (deltaTime : Q) g :
  ExtInv g ->
  ExtInv (set_leftPaddle (Paddle_update deltaTime (leftPaddle g)) g) /\
  ExtInv (set_rightPaddle (Paddle_update deltaTime (rightPaddle g)) g).
Proof.
  intros (R & S1 & S2 & V1 & V2 & X1 & X2 & L & Rs & K & Hp).
  pose proof (Paddle_update_x deltaTime _ V1) as P1.
  pose proof (Paddle_update_x deltaTime _ V2) as P2.
  unfold ExtInv. simpl_game. split.
  - refine (conj R (conj S1 (conj S2 (conj V1 (conj V2 (conj _ (conj X2
             (conj L (conj Rs (conj K Hp)))))))))). rewrite P1. exact X1.
  - refine (conj R (conj S1 (conj S2 (conj V1 (conj V2 (conj X1 (conj _
             (conj L (conj Rs (conj K Hp)))))))))). rewrite P2. exact X2.
Qed.

(** The right paddle after [handleAIPaddleMovement]: unchanged, or turned
    towards a point straight above or below it. *)
Lemma ExtInv_ai_paddle g g' :
  ExtInv g ->
  (rightPaddle g' = rightPaddle g \/
   exists ty, rightPaddle g' =
     mkPaddle (pointTowards (mkVector2 (vx (position (pobj (rightPaddle g)))) ty)
                            (pobj (rightPaddle g))) (size (rightPaddle g))) ->
  ball g' = ball g -> leftPaddle g' = leftPaddle g ->
  scoreLeft g' = scoreLeft g -> scoreRight g' = scoreRight g ->
  activeKey g' = activeKey g -> pred_ok g' ->
  ExtInv g' /\ size (rightPaddle g') = size (rightPaddle g) /\
  position (pobj (rightPaddle g')) = position (pobj (rightPaddle g)).
Proof.
  intros Ext [E|[ty E]] Eb El Esl Esr Ek Hp.
  - split; [|rewrite E; split; reflexivity].
    apply (ExtInv_transfer g); rewrite ?Eb, ?Esl, ?Esr; try reflexivity; try assumption; lia.
  - destruct Ext as (R & S1 & S2 & V1 & V2 & X1 & X2 & L & Rs & K & _).
    unfold ExtInv. rewrite E, Eb, El, Esl, Esr, Ek. unfold pointTowards. simpl_game.
    split; [|split; reflexivity].
    refine (conj R (conj S1 (conj S2 (conj V1 (conj _ (conj X1 (conj X2
             (conj L (conj Rs (conj K Hp)))))))))).
    apply normaliseVersor_vx0. cbn [vsub vx]. ring.
Qed.

Lemma handlePaddleBallCollision_ext (isLeftPaddle : bool) g (Post : unit -> Game -> Prop) :
  GameInv g ->
  (forall g', GameInv g' ->
     (exists b, g' = set_ball b g /\ radius b = radius (ball g) /\
                position (bobj b) = position (bobj (ball g))) ->
     Post tt g') ->
  wp (handlePaddleBallCollision isLeftPaddle) Post g.
Proof.
  intros Inv HP.
  assert (W : wp (handlePaddleBallCollision isLeftPaddle)
                (fun _ g' => exists b, g' = set_ball b g /\ radius b = radius (ball g) /\
                                       position (bobj b) = position (bobj (ball g))) g).
  { pose proof Inv as (_ & S1 & S2 & _).
    unfold handlePaddleBallCollision. wp_run.
    - exfalso. destruct isLeftPaddle; [rewrite S1 in *|rewrite S2 in *]; discriminate.
    - eexists. split; [reflexivity|]. split; reflexivity.
    - exists (ball g). split; [destruct g; reflexivity|]. split; reflexivity. }
  apply (wp_conseq _ _ _ _ (wp_and _ _ _ _
    (handlePaddleBallCollision_spec isLeftPaddle g (fun _ g' => GameInv g') Inv
       (fun g' I _ _ _ _ _ _ _ => I)) W)).
  intros [] g' [I E]. apply HP; assumption.
Qed.

Lemma handleWallBallCollision_ext g (Post : unit -> Game -> Prop) :
  GameInv g ->
  (forall g', GameInv g' ->
     (exists b, g' = set_ball b g /\ radius b = radius (ball g) /\
                position (bobj b) = position (bobj (ball g))) ->
     Post tt g') ->
  wp handleWallBallCollision Post g.
Proof.
  intros Inv HP.
  assert (W : wp handleWallBallCollision
                (fun _ g' => exists b, g' = set_ball b g /\ radius b = radius (ball g) /\
                                       position (bobj b) = position (bobj (ball g))) g).
  { unfold handleWallBallCollision. wp_run.
    - eexists. split; [reflexivity|]. split; reflexivity.
    - exists (ball g). split; [destruct g; reflexivity|]. split; reflexivity. }
  apply (wp_conseq _ _ _ _ (wp_and _ _ _ _
    (handleWallBallCollision_spec g (fun _ g' => GameInv g') Inv
       (fun g' I _ _ _ _ _ _ _ => I)) W)).
  intros [] g' [I E]. apply HP; assumption.
Qed.

Lemma resetRound_ext g (Post : unit -> Game -> Prop) :
  size (rightPaddle g) = mkVector2 10 100 -> pred_ok g ->
  (forall v g', serve_draw v ->
     ball g' = served_ball v (radius (ball g)) ->
     leftPaddle g' = leftPaddle g -> rightPaddle g' = rightPaddle g ->
     scoreLeft g' = scoreLeft g -> scoreRight g' = scoreRight g ->
     activeKey g' = activeKey g -> currentSpeedRecord g' = currentSpeedRecord g ->
     pred_ok g' -> Post tt g') ->
  wp resetRound Post g.
Proof.
  intros Hs Hp HP. unfold resetRound. wp_run.
  apply randomValidVersor_spec. intros v _ _ Ev. wp_run.
  apply handleAIPaddleMovement_ext; simpl_game; [discriminate|assumption|assumption|].
  intros g' Eb El Esl Esr Ek Erc _ Hp' Er.
  apply (HP v); [rewrite Ev; apply randomValidVersor_draw|..]; try assumption.
  destruct Er as [Er|[Hf _]]; [exact Er|discriminate].
Qed.

Lemma handlePointScoring_ext g (Post : unit -> Game -> Prop) :
  GameInv g -> ExtInv g ->
  (forall g', GameInv g' -> ExtInv g' ->
     leftPaddle g' = leftPaddle g -> rightPaddle g' = rightPaddle g ->
     currentSpeedRecord g' = currentSpeedRecord g -> score_step g g' ->
     (vx (position (bobj (ball g))) + radius (ball g) < inject_Z screenWidth ->
      0 < vx (position (bobj (ball g))) - radius (ball g) -> g' = g) ->
     Post tt g') ->
  wp handlePointScoring Post g.
Proof.
  intros Inv Ext HP.
  pose proof Inv as (_ & _ & S2 & _).
  pose proof Ext as (_ & _ & _ & _ & _ & _ & _ & _ & _ & _ & Hp).
  assert (W : wp handlePointScoring (fun _ g' => ExtInv g' /\
     leftPaddle g' = leftPaddle g /\ rightPaddle g' = rightPaddle g /\
     currentSpeedRecord g' = currentSpeedRecord g /\ score_step g g' /\
     (vx (position (bobj (ball g))) + radius (ball g) < inject_Z screenWidth ->
      0 < vx (position (bobj (ball g))) - radius (ball g) -> g' = g)) g).
  { unfold handlePointScoring, incrementScore. wp_run.
    3: { split; [exact Ext|]. split; [reflexivity|]. split; [reflexivity|].
         split; [reflexivity|]. split; [left; split; reflexivity|]. reflexivity. }
    all: apply GetRandomValue_spec; intros _.
    all: apply resetRound_ext; simpl_game; [exact S2|exact Hp|].
    all: intros v g' _ Eb El Er Esl Esr Ek Erc Hp'.
    all: simpl_game; split;
      [apply (ExtInv_transfer g); rewrite ?Eb, ?El, ?Er, ?Esl, ?Esr, ?Ek; try reflexivity;
       try assumption; lia|].
    all: split; [exact El|]. all: split; [exact Er|]. all: split; [exact Erc|].
    all: split; [unfold score_step; rewrite Esl, Esr; simpl_game; tauto|].
    - apply Qle_bool_iff in Heqb. intros H1 _. exfalso. lra.
    - apply Qle_bool_iff in Heqb0. intros _ H2. exfalso. lra. }
  apply (wp_conseq _ _ _ _ (wp_and _ _ _ _
    (handlePointScoring_spec g (fun _ g' => GameInv g') Inv (fun g' I => I)) W)).
  intros [] g' [I (E & El & Er & Erc & Sc & Ns)]. apply HP; assumption.
Qed.

Lemma update_ext (deltaTime : Q) g (Post : unit -> Game -> Prop) :
  GameInv g -> ExtInv g ->
  (forall g', GameInv g' -> ExtInv g' ->
     leftPaddle g' = Paddle_update deltaTime (leftPaddle g) ->
     score_step g g' ->
     (vx (position (bobj (ball g))) + radius (ball g) < inject_Z screenWidth ->
      0 < vx (position (bobj (ball g))) - radius (ball g) ->
      scoreLeft g' = scoreLeft g /\ scoreRight g' = scoreRight g) ->
     (currentSpeedRecord g <= currentSpeedRecord g')%Z ->
     (400 <= currentSpeedRecord g')%Z ->
     (float_to_int (speed (bobj (ball g'))) <= currentSpeedRecord g')%Z ->
     Post tt g') ->
  wp (update deltaTime) Post g.
Proof.
  intros Inv Ext HP. unfold update.
  apply wp_bind, handlePaddleBallCollision_ext; [exact Inv|].
  intros g1 Inv1 (b1 & -> & R1 & P1).
  apply wp_bind, handlePaddleBallCollision_ext; [exact Inv1|].
  intros g2 Inv2 (b2 & -> & R2 & P2).
  apply wp_bind, handleWallBallCollision_ext; [exact Inv2|].
  intros g3 Inv3 (b3 & -> & R3 & P3).
  simpl_game.
  set (g3 := set_ball b3 (set_ball b2 (set_ball b1 g))) in *.
  assert (Ext3 : ExtInv g3).
  { apply (ExtInv_transfer g); [exact Ext|..]; unfold g3; simpl_game; try reflexivity; try lia.
    - rewrite R3, R2, R1. reflexivity.
    - destruct Ext as (_ & _ & _ & _ & _ & _ & _ & _ & _ & _ & Hp).
      unfold pred_ok in *. simpl_game. exact Hp. }
  apply wp_bind, handlePointScoring_ext; [exact Inv3|exact Ext3|].
  intros g4 Inv4 Ext4 L4 Rp4 C4 S4 N4.
  apply wp_bind, handleAIPaddleMovement_ext;
    [apply dir_ok_nonzero, Inv4|apply Inv4|apply Ext4|].
  intros g5 B5 L5 Sl5 Sr5 K5 C5 _ Hp5 Rp5.
  destruct (ExtInv_ai_paddle g4 g5 Ext4
              ltac:(destruct Rp5 as [E|[_ E]]; [left|right]; exact E)
              B5 L5 Sl5 Sr5 K5 Hp5) as (Ext5 & Sz5 & Ps5).
  assert (Inv5 : GameInv g5)
    by (apply (GameInv_transfer g4); rewrite ?B5, ?L5, ?Sz5, ?Ps5; try reflexivity; exact Inv4).
  apply wp_bind, wp_modify.
  destruct (GameInv_paddle_update deltaTime g5 Inv5) as [Inv6 _].
  destruct (ExtInv_paddle_update deltaTime g5 Ext5) as [Ext6 _].
  apply wp_bind, wp_modify.
  destruct (GameInv_paddle_update deltaTime _ Inv6) as [_ Inv7].
  destruct (ExtInv_paddle_update deltaTime _ Ext6) as [_ Ext7].
  apply wp_bind, wp_modify.
  apply wp_bind, getSpeedRecord_false_spec. intros r Hr1 Hr2 _.
  apply wp_ret. simpl_game.
  pose proof Inv5 as (D5 & _ & _ & Sp5 & _).
  assert (Es : speed (GameObject_update deltaTime (bobj (ball g5))) = speed (bobj (ball g5)))
    by reflexivity.
  rewrite Es in Hr2. specialize (Hr2 ltac:(lra)).
  apply HP.
  - apply (GameInv_ball _ _ Inv7); unfold GameObject_update; simpl_game;
      [exact D5|exact Sp5|reflexivity|reflexivity].
  - apply (ExtInv_transfer _ _ Ext7); simpl_game; try reflexivity; try lia.
    destruct Ext7 as (_ & _ & _ & _ & _ & _ & _ & _ & _ & _ & Hp7).
    unfold pred_ok in *. simpl_game. exact Hp7.
  - simpl_game. rewrite L5, L4. reflexivity.
  - unfold score_step in *. simpl_game. rewrite Sl5, Sr5. exact S4.
  - intros H1 H2.
    assert (E4 : g4 = g3)
      by (apply N4; unfold g3; simpl_game; rewrite P3, P2, P1, R3, R2, R1; assumption).
    simpl_game. rewrite Sl5, Sr5, E4. split; reflexivity.
  - simpl_game. rewrite C5, C4 in Hr1. exact Hr1.
  - simpl_game. pose proof (Qtrunc_ge 400 _ Sp5). unfold float_to_int in Hr2. lia.
  - simpl_game. rewrite Es. exact Hr2.
Qed.

Lemma getSpeedRecord_true_spec g (Post : Z -> Game -> Prop) :
  Post 0%Z (set_currentSpeedRecord 0 g) -> wp (getSpeedRecord true) Post g.
Proof. intro HP. exact HP. Qed.

Lemma verticalKeyStep_range (k : Z) (upPressed downPressed : bool) :
  (k = (-1)%Z \/ k = KEY_UP \/ k = KEY_DOWN) ->
  (fst (verticalKeyStep k upPressed downPressed) = (-1)%Z \/
   fst (verticalKeyStep k upPressed downPressed) = KEY_UP \/
   fst (verticalKeyStep k upPressed downPressed) = KEY_DOWN) /\
  (snd (verticalKeyStep k upPressed downPressed) = (-1)%Z \/
   snd (verticalKeyStep k upPressed downPressed) = KEY_UP \/
   snd (verticalKeyStep k upPressed downPressed) = KEY_DOWN).
Proof.
  intro Hk. destruct upPressed, downPressed; cbn; [|tauto|tauto|tauto].
  split; [exact Hk|]. destruct (k =? KEY_UP)%Z; tauto.
Qed.

Lemma resetGame_ext g (Post : unit -> Game -> Prop) :
  GameInv g -> ExtInv g ->
  (forall g', ExtInv g' -> scoreLeft g' = 0%Z -> scoreRight g' = 0%Z ->
     (exists v, ball g' = served_ball v (radius (ball g))) -> Post tt g') ->
  wp resetGame Post g.
Proof.
  intros Inv Ext HP.
  pose proof Inv as (_ & _ & S2 & _).
  destruct Ext as (R & S1 & S2' & V1 & V2 & X1 & X2 & L & Rs & K & Hp).
  unfold resetGame. wp_run.
  apply randomValidVersor_spec. intros v _ _ _. wp_run.
  apply getSpeedRecord_true_spec.
  apply handleAIPaddleMovement_ext; simpl_game; [discriminate|exact S2|exact Hp|].
  intros g' Eb El Esl Esr Ek _ _ Hp' Er.
  destruct Er as [Er|[Hf _]]; [|discriminate].
  apply HP; [|rewrite Esl; reflexivity|rewrite Esr; reflexivity|
             exists v; rewrite Eb; reflexivity].
  unfold ExtInv. rewrite Eb, El, Er, Esl, Esr, Ek. unfold moveTo. simpl_game.
  refine (conj R (conj S1 (conj S2' (conj V1 (conj V2 (conj _ (conj _
           (conj _ (conj _ (conj K Hp')))))))))); reflexivity || lia.
Qed.

(** The left paddle [readInput] leaves for the frame, before [resetGame]. *)
Lemma readInput_ext (i : FrameInput) g (Post : unit -> Game -> Prop) :
  GameInv g -> ExtInv g ->
  (forall g', GameInv g' -> ExtInv g' ->
     (rPressed i = false ->
        ball g' = ball g /\ rightPaddle g' = rightPaddle g /\
        scoreLeft g' = scoreLeft g /\ scoreRight g' = scoreRight g /\
        currentSpeedRecord g' = currentSpeedRecord g /\
        leftPaddle g' =
          (let k := snd (verticalKeyStep (activeKey g) (upDown i) (downDown i)) in
           let lp := leftPaddle g in
           let o := pobj lp in
           let versor' :=
             if (k =? KEY_UP)%Z then mkVector2 (vx (versor o)) (inject_Z UP)
             else if (k =? KEY_DOWN)%Z then mkVector2 (vx (versor o)) (inject_Z DOWN)
             else mkVector2 (inject_Z NONE) (inject_Z NONE) in
           mkPaddle (mkGameObject (position o) versor' (speed o)) (size lp))) ->
     (rPressed i = true ->
        scoreLeft g' = 0%Z /\ scoreRight g' = 0%Z /\
        exists v, ball g' = served_ball v (radius (ball g))) ->
     Post tt g') ->
  wp (readInput i) Post g.
Proof.
  intros Inv Ext HP.
  pose proof Ext as (R & S1 & S2 & V1 & V2 & X1 & X2 & L & Rs & K & Hp).
  destruct (verticalKeyStep_range _ (upDown i) (downDown i) K) as [K1 K2].
  assert (W : wp (readInput i) (fun _ g' => ExtInv g' /\
     (rPressed i = false ->
        ball g' = ball g /\ rightPaddle g' = rightPaddle g /\
        scoreLeft g' = scoreLeft g /\ scoreRight g' = scoreRight g /\
        currentSpeedRecord g' = currentSpeedRecord g /\
        leftPaddle g' =
          (let k := snd (verticalKeyStep (activeKey g) (upDown i) (downDown i)) in
           let lp := leftPaddle g in
           let o := pobj lp in
           let versor' :=
             if (k =? KEY_UP)%Z then mkVector2 (vx (versor o)) (inject_Z UP)
             else if (k =? KEY_DOWN)%Z then mkVector2 (vx (versor o)) (inject_Z DOWN)
             else mkVector2 (inject_Z NONE) (inject_Z NONE) in
           mkPaddle (mkGameObject (position o) versor' (speed o)) (size lp))) /\
     (rPressed i = true ->
        scoreLeft g' = 0%Z /\ scoreRight g' = 0%Z /\
        exists v, ball g' = served_ball v (radius (ball g)))) g).
  { unfold readInput, getCurrentVerticalKey. wp_run.
    all: match goal with
         | |- context [set_leftPaddle ?p (set_activeKey ?z ?g0)] =>
             assert (Ext1 : ExtInv (set_leftPaddle p (set_activeKey z g0)));
             [|assert (Inv1 : GameInv (set_leftPaddle p (set_activeKey z g0)))]
         end.
    all: try (unfold ExtInv, pred_ok in *; simpl_game;
              refine (conj R (conj S1 (conj S2 (conj _ (conj V2 (conj X1 (conj X2
                        (conj L (conj Rs (conj K1 Hp))))))))));
              destruct (_ =? KEY_UP)%Z; [exact V1|];
              destruct (_ =? KEY_DOWN)%Z; [exact V1|reflexivity]).
    all: try (apply (GameInv_transfer g); simpl_game; try reflexivity; exact Inv).
    - apply resetGame_ext; [exact Inv1|exact Ext1|].
      intros g' Ext' Sl Sr [v Eb]. split; [exact Ext'|]. split; [discriminate|].
      intros _. split; [exact Sl|]. split; [exact Sr|].
      exists v. rewrite Eb. reflexivity.
    - split; [exact Ext1|]. split; [|discriminate]. intros _. simpl_game.
      repeat split; reflexivity. }
  apply (wp_conseq _ _ _ _
           (wp_and _ _ _ _ (readInput_spec i g (fun _ g' => GameInv g') Inv (fun _ I => I)) W)).
  intros [] g' [I (E & F1 & F2)]. apply HP; assumption.
Qed.

Lemma frame_ext (i : FrameInput) g (Post : unit -> Game -> Prop) :
  GameInv g -> ExtInv g ->
  (forall g', GameInv g' -> ExtInv g' ->
     (rPressed i = false -> score_step g g') ->
     (rPressed i = true -> scoreLeft g' = 0%Z /\ scoreRight g' = 0%Z) ->
     (rPressed i = false -> (currentSpeedRecord g <= currentSpeedRecord g')%Z) ->
     (400 <= currentSpeedRecord g')%Z ->
     (float_to_int (speed (bobj (ball g'))) <= currentSpeedRecord g')%Z ->
     (rPressed i = false ->
        leftPaddle g' = Paddle_update (frameTime i)
          (let k := snd (verticalKeyStep (activeKey g) (upDown i) (downDown i)) in
           let lp := leftPaddle g in
           let o := pobj lp in
           let versor' :=
             if (k =? KEY_UP)%Z then mkVector2 (vx (versor o)) (inject_Z UP)
             else if (k =? KEY_DOWN)%Z then mkVector2 (vx (versor o)) (inject_Z DOWN)
             else mkVector2 (inject_Z NONE) (inject_Z NONE) in
           mkPaddle (mkGameObject (position o) versor' (speed o)) (size lp))) ->
     Post tt g') ->
  wp (frame i) Post g.
Proof.
  intros Inv Ext HP. pose proof Ext as (R & _).
  unfold frame. apply wp_bind, readInput_ext; [exact Inv|exact Ext|].
  intros g1 Inv1 Ext1 N1 Y1.
  apply update_ext; [exact Inv1|exact Ext1|].
  intros g' Inv' Ext' L' Sc' Ns' Rc' R4 Rt.
  apply HP; try assumption.
  - intro Hr. destruct (N1 Hr) as (_ & _ & Sl & Sr & _).
    unfold score_step in *. rewrite <- Sl, <- Sr. exact Sc'.
  - intro Hr. destruct (Y1 Hr) as (Sl & Sr & v & Eb).
    assert (E : scoreLeft g' = scoreLeft g1 /\ scoreRight g' = scoreRight g1)
      by (apply Ns'; rewrite Eb, R; vm_compute; reflexivity).
    lia.
  - intro Hr. destruct (N1 Hr) as (_ & _ & _ & _ & Rc & _). lia.
  - intro Hr. destruct (N1 Hr) as (_ & _ & _ & _ & _ & Lp). rewrite L', Lp. reflexivity.
Qed.

Lemma init_ExtInv : wp init (fun _ g' => GameInv g' /\ ExtInv g') game_default.
Proof.
  apply wp_and; [apply init_spec; intros g' I; exact I|].
  unfold init. wp_run.
  apply randomValidVersor_spec. intros v _ _ _. wp_run.
  unfold ExtInv, pred_ok. simpl_game.
  refine (conj eq_refl (conj eq_refl (conj eq_refl (conj _ (conj _ (conj _ (conj eq_refl
            (conj _ (conj _ (conj _ _)))))))))); try reflexivity; try lia.
  - left. reflexivity.
  - discriminate.
Qed.

Lemma reachable_ExtInv g : reachable g -> GameInv g /\ ExtInv g.
Proof.
  induction 1 as [g Hinit|g i g' _ [Inv Ext] Hf].
  - exact (wp_inv _ _ _ _ _ init_ExtInv Hinit).
  - apply (wp_inv (frame i) (fun _ g2 => GameInv g2 /\ ExtInv g2) g tt g'); [|exact Hf].
    apply frame_ext; [exact Inv|exact Ext|]. intros g2 I E. auto.
Qed.

Lemma normaliseVersor_len (v : Vector2) :
  let s := vx v * vx v + vy v * vy v in
  sqrtf s * sqrtf s == s -> ~ s == 0 ->
  vx (normaliseVersor v) * vx (normaliseVersor v) +
  vy (normaliseVersor v) * vy (normaliseVersor v) == 1.
Proof.
  intros s Hs Hnz. unfold normaliseVersor. fold s. set (len := sqrtf s) in *.
  destruct (Qeq_bool len 0) eqn:E.
  - apply Qeq_bool_iff in E. exfalso. apply Hnz. rewrite <- Hs, E. reflexivity.
  - apply Qeq_bool_neq in E. cbn [vx vy].
    transitivity ((vx v * vx v + vy v * vy v) / (len * len)); [field; exact E|].
    fold s. rewrite Hs. field. exact Hnz.
Qed.

(** [Paddle::update] along a unit vertical versor, with a square root that
    is exact at 1. *)
Lemma Paddle_update_vertical (deltaTime d : Q) (p : Paddle) :
  (forall q, q == 1 -> sqrtf q == 1) ->
  vx (versor (pobj p)) == 0 -> vy (versor (pobj p)) = d -> d * d == 1 ->
  let y1 := vy (position (pobj p)) + d * speed (pobj p) * deltaTime in
  (0 <= y1 /\ y1 + vy (size p) <= inject_Z screenHeight ->
   vy (position (pobj (Paddle_update deltaTime p))) == y1) /\
  (~ (0 <= y1 /\ y1 + vy (size p) <= inject_Z screenHeight) ->
   vy (position (pobj (Paddle_update deltaTime p))) == vy (position (pobj p))).
Proof.
  intros Hs Hx Hy Hd y1.
  assert (Hn : vy (normaliseVersor (versor (pobj p))) == d).
  { unfold normaliseVersor. set (v := versor (pobj p)) in *.
    assert (E1 : vx v * vx v + vy v * vy v == 1)
      by (rewrite Hx, Hy; transitivity (d * d); [ring|exact Hd]).
    pose proof (Hs _ E1) as L. set (len := sqrtf _) in *.
    destruct (Qeq_bool len 0) eqn:E;
      [apply Qeq_bool_iff in E; rewrite L in E; discriminate|].
    cbn [vy]. rewrite L, Hy. field. }
  unfold Paddle_update. cbv zeta. cbn [position pobj size vx vy vadd vscale].
  set (a := vy (position (pobj p)) +
            vy (normaliseVersor (versor (pobj p))) * speed (pobj p) * deltaTime).
  assert (Ea : a == y1) by (unfold a, y1; rewrite Hn; reflexivity).
  destruct (accept_axis_eq a (vy (position (pobj p))) (vy (size p)) (inject_Z screenHeight))
    as [A1 A2].
  split; intro Hc.
  - rewrite A1; [exact Ea|]. rewrite Ea. exact Hc.
  - rewrite A2; [reflexivity|]. rewrite Ea. exact Hc.
Qed.


Lemma GetRandomValue_range (lo hi : Z) g (Post : Z -> Game -> Prop) :
  (lo <= hi)%Z ->
  (forall r, (lo <= r <= hi)%Z -> Post r (set_rng (S (rng g)) g)) ->
  wp (GetRandomValue lo hi) Post g.
Proof.
  intros Hl HP. unfold wp, GetRandomValue.
  replace (hi <? lo)%Z with false by (symmetry; apply Z.ltb_ge; lia).
  apply HP. pose proof (Z.mod_pos_bound (rand (rng g)) (Z.abs (hi - lo) + 1) ltac:(lia)).
  rewrite Z.abs_eq in * by lia. lia.
Qed.

End GameExtra.

(** ** The sample square root: exact at 1, positive on positive inputs *)

Lemma newton_sqrt_one (n : nat) (q : Q) : q == 1 -> newton_sqrt n q 1 = 1.
Proof.
  intro Hq. induction n as [|n IH]; [reflexivity|]. cbn [newton_sqrt].
  rewrite (Qred_complete _ 1); [exact IH|]. rewrite Hq. reflexivity.
Qed.

Lemma sample_sqrtf_one (q : Q) : q == 1 -> sample_sqrtf q == 1.
Proof.
  intro Hq. unfold sample_sqrtf.
  destruct (Qle_bool q 0) eqn:E; [apply Qle_bool_iff in E; lra|].
  rewrite (Qred_complete _ 1); [|rewrite Hq; reflexivity].
  replace (Qred 1) with 1 by reflexivity.
  rewrite (newton_sqrt_one 6 q Hq). reflexivity.
Qed.



Lemma reachable_sample_init : @reachable sample_platform sample_init_state.
Proof. apply reachable_init. vm_compute. reflexivity. Qed.

(** ** Further properties of the game *)

(** X1: in every reachable state the ball radius is 7, both paddles have
    speed 300 and size 10 x 100: [init] sets these values and no later code
    changes them. *)
Theorem reachable_fixed_dimensions `{Platform} (g : Game) (Hr : reachable g) :
  radius (ball g) = 7 /\
  speed (pobj (leftPaddle g)) = 300 /\ speed (pobj (rightPaddle g)) = 300 /\
  size (leftPaddle g) = mkVector2 10 100 /\ size (rightPaddle g) = mkVector2 10 100.
Proof.
  destruct (reachable_ExtInv g Hr) as [(_ & Sl & Sr & _) (Rd & Pl & Pr & _)].
  exact (conj Rd (conj Pl (conj Pr (conj Sl Sr)))).
Qed.

(** X2: the paddles only ever move vertically: in every reachable state the
    left paddle is at x = 50, the right one at x = screenWidth - 50, and the
    x component of both paddles' versors is 0. *)
Theorem reachable_paddles_vertical `{Platform} (g : Game) (Hr : reachable g) :
  vx (position (pobj (leftPaddle g))) == 50 /\
  vx (position (pobj (rightPaddle g))) == inject_Z screenWidth - 50 /\
  vx (versor (pobj (leftPaddle g))) == 0 /\ vx (versor (pobj (rightPaddle g))) == 0.
Proof.
  destruct (reachable_ExtInv g Hr) as [_ (_ & _ & _ & Vl & Vr & Xl & Xr & _)].
  exact (conj Xl (conj Xr (conj Vl Vr))).
Qed.

(** X3: in every reachable state both scores are non-negative and the
    recorded key [activeKey] of [getCurrentVerticalKey] is -1, [KEY_UP] or
    [KEY_DOWN]. *)
Theorem reachable_scores_activeKey `{Platform} (g : Game) (Hr : reachable g) :
  (0 <= scoreLeft g)%Z /\ (0 <= scoreRight g)%Z /\
  (activeKey g = (-1)%Z \/ activeKey g = KEY_UP \/ activeKey g = KEY_DOWN).
Proof.
  destruct (reachable_ExtInv g Hr) as [_ (_ & _ & _ & _ & _ & _ & _ & Sl & Sr & K & _)].
  exact (conj Sl (conj Sr K)).
Qed.

(** X4: a frame from a reachable state without the restart key either keeps
    the score or adds exactly one point to exactly one side. *)
Theorem frame_score_step `{Platform} (g : Game) (i : FrameInput)
  (Hr : reachable g) (HR : rPressed i = false) :
  wp (frame i) (fun _ g' => score_step g g') g.
Proof.
  destruct (reachable_ExtInv g Hr) as [I E].
  apply frame_ext; [exact I|exact E|].
  intros g' _ _ S _ _ _ _ _. exact (S HR).
Qed.

(** X5: a frame from a reachable state in which R is pressed ends with the
    score 0 to 0: the served ball cannot score in the same frame. *)
Theorem frame_restart_scores `{Platform} (g : Game) (i : FrameInput)
  (Hr : reachable g) (HR : rPressed i = true) :
  wp (frame i) (fun _ g' => scoreLeft g' = 0%Z /\ scoreRight g' = 0%Z) g.
Proof.
  destruct (reachable_ExtInv g Hr) as [I E].
  apply frame_ext; [exact I|exact E|].
  intros g' _ _ _ Z0 _ _ _ _. exact (Z0 HR).
Qed.

(** X6: after any frame from a reachable state the speed record is at least
    400 and at least the truncated ball speed, so the displayed record is
    never below the displayed speed; without the restart key the record
    never decreases. *)
Theorem frame_speed_record `{Platform} (g : Game) (i : FrameInput) (Hr : reachable g) :
  wp (frame i) (fun _ g' =>
    (400 <= currentSpeedRecord g')%Z /\
    (float_to_int (speed (bobj (ball g'))) <= currentSpeedRecord g')%Z /\
    (rPressed i = false -> (currentSpeedRecord g <= currentSpeedRecord g')%Z)) g.
Proof.
  destruct (reachable_ExtInv g Hr) as [I E].
  apply frame_ext; [exact I|exact E|].
  intros g' _ _ _ _ Rc R4 Rt _. exact (conj R4 (conj Rt Rc)).
Qed.

(** X7: [getSpeedRecord(true)] sets the record to 0 and returns 0;
    [getSpeedRecord(false)] returns the new record and changes nothing but
    the record: the new record is never below the old one, it stays the old
    one while the ball speed does not exceed it, and for a non-negative speed
    it is at least the truncated speed and above the speed minus 1. *)
Theorem getSpeedRecord_behaviour `{Platform} (g : Game) :
  wp (getSpeedRecord true) (fun r g' => r = 0%Z /\ g' = set_currentSpeedRecord 0 g) g /\
  wp (getSpeedRecord false) (fun r g' =>
    g' = set_currentSpeedRecord r g /\
    (currentSpeedRecord g <= r)%Z /\
    (speed (bobj (ball g)) <= inject_Z (currentSpeedRecord g) -> r = currentSpeedRecord g) /\
    (0 <= speed (bobj (ball g)) ->
       (float_to_int (speed (bobj (ball g))) <= r)%Z /\ speed (bobj (ball g)) < inject_Z r + 1)) g.
Proof.
  split; [unfold getSpeedRecord; wp_run; split; reflexivity|].
  assert (W : wp (getSpeedRecord false) (fun r _ =>
                speed (bobj (ball g)) <= inject_Z (currentSpeedRecord g) ->
                r = currentSpeedRecord g) g).
  { unfold getSpeedRecord. wp_run; intro Hle; [|reflexivity].
    apply Qlt_bool_iff in Heqb. lra. }
  apply (wp_conseq _ _ _ _ (wp_and _ _ _ _
           (getSpeedRecord_false_spec g (fun r g' =>
              g' = set_currentSpeedRecord r g /\ (currentSpeedRecord g <= r)%Z /\
              (0 <= speed (bobj (ball g)) ->
                 (float_to_int (speed (bobj (ball g))) <= r)%Z /\
                 speed (bobj (ball g)) < inject_Z r + 1))
              (fun r Hr Ht Hl => conj eq_refl (conj Hr (fun Hs => conj (Ht Hs) (Hl Hs)))))
           W)).
  intros r g' [(E & Hr & Hs) Hk]. exact (conj E (conj Hr (conj Hk Hs))).
Qed.


(** X9: in a frame from a reachable state with only the up key held and R
    not pressed, the player's paddle moves up by [300 * frameTime] when it
    stays on the screen and does not move otherwise; with only the down key
    held, the same downwards. This holds for a frame time [>= 0] and a square
    root that gives 1 at 1 (the versor [(0, -1)] or [(0, 1)] is normalised). *)
Theorem frame_key_moves_left_paddle `{Platform} (g : Game) (i : FrameInput)
  (Hr : reachable g) (Hsqrt : forall q, q == 1 -> sqrtf q == 1)
  (Hdt : 0 <= frameTime i) (HR : rPressed i = false) :
  let y := vy (position (pobj (leftPaddle g))) in
  let dy := 300 * frameTime i in
  (upDown i = true -> downDown i = false ->
   wp (frame i) (fun _ g' =>
     (0 <= y - dy -> vy (position (pobj (leftPaddle g'))) == y - dy) /\
     (y - dy < 0 -> vy (position (pobj (leftPaddle g'))) == y)) g) /\
  (upDown i = false -> downDown i = true ->
   wp (frame i) (fun _ g' =>
     (y + dy + 100 <= inject_Z screenHeight -> vy (position (pobj (leftPaddle g'))) == y + dy) /\
     (inject_Z screenHeight < y + dy + 100 -> vy (position (pobj (leftPaddle g'))) == y)) g).
Proof.
  intros y dy. destruct (reachable_ExtInv g Hr) as [I E].
  pose proof I as (_ & Sl & _ & _ & (_ & _ & Y0 & Y1) & _).
  pose proof E as (_ & Pl & _ & Vl & _).
  rewrite Sl in Y1. cbn [vy] in Y1.
  assert (Hdy : 0 <= dy) by (unfold dy; lra).
  assert (Edy : dy == 300 * frameTime i) by reflexivity. clearbody dy.
  split; intros Hu Hd; apply frame_ext; try assumption;
    intros g' _ _ _ _ _ _ _ L; rewrite (L HR); clear L; rewrite Hu, Hd.
  - set (P := mkPaddle (mkGameObject (position (pobj (leftPaddle g)))
                 (mkVector2 (vx (versor (pobj (leftPaddle g)))) (inject_Z UP)) (speed (pobj (leftPaddle g)))) (size (leftPaddle g))).
    destruct (Paddle_update_vertical (frameTime i) (inject_Z UP) P Hsqrt Vl eq_refl
                ltac:(reflexivity)) as [A1 A2].
    assert (Ey : vy (position (pobj P)) + inject_Z UP * speed (pobj P) * frameTime i == y - dy)
      by (cbn [P pobj position speed]; rewrite Pl, Edy; unfold y, UP; simpl inject_Z; ring).
    assert (Es : vy (size P) = 100) by (cbn [P size]; rewrite Sl; reflexivity).
    rewrite Ey, Es in A1, A2. unfold y in *.
    split; intro Hc.
    + refine (A1 (conj Hc _)). lra.
    + apply A2. intros [C _]. lra.
  - set (P := mkPaddle (mkGameObject (position (pobj (leftPaddle g)))
                 (mkVector2 (vx (versor (pobj (leftPaddle g)))) (inject_Z DOWN)) (speed (pobj (leftPaddle g)))) (size (leftPaddle g))).
    destruct (Paddle_update_vertical (frameTime i) (inject_Z DOWN) P Hsqrt Vl eq_refl
                ltac:(reflexivity)) as [A1 A2].
    assert (Ey : vy (position (pobj P)) + inject_Z DOWN * speed (pobj P) * frameTime i == y + dy)
      by (cbn [P pobj position speed]; rewrite Pl, Edy; unfold y, DOWN; simpl inject_Z; ring).
    assert (Es : vy (size P) = 100) by (cbn [P size]; rewrite Sl; reflexivity).
    rewrite Ey, Es in A1, A2. unfold y in *.
    split; intro Hc.
    + refine (A1 (conj _ Hc)). lra.
    + apply A2. intros [_ C]. lra.
Qed.



(** X12: the score sound id [ScorePoint + GetRandomValue(0, 1)] is 2 or 3,
    and it and the two paddle-hit ids are within the 4 sounds that
    [loadSoundEffects] loads, so [playSoundEffect] plays them; the draw
    consumes one [rand()] result. With no sound loaded (before
    [loadSoundEffects] or after [unloadSound] clears the vector) every id is
    reported out of range. *)
Theorem sound_ids_in_range `{Platform} :
  (forall g, wp scoreSoundId (fun id g' =>
     (id = 2%Z \/ id = 3%Z) /\
     playSoundEffect loadSoundEffects_size id = PlaySound id /\
     g' = set_rng (S (rng g)) g) g) /\
  playSoundEffect loadSoundEffects_size PlayerPaddleHit = PlaySound PlayerPaddleHit /\
  playSoundEffect loadSoundEffects_size AIPaddleHit = PlaySound AIPaddleHit /\
  (forall id, playSoundEffect 0 id = OutOfRangeError id).
Proof.
  split; [|split; [reflexivity|split; [reflexivity|]]].
  - intro g. unfold scoreSoundId. apply wp_bind, GetRandomValue_range; [lia|].
    intros r Hr. apply wp_ret.
    assert (Hr' : r = 0%Z \/ r = 1%Z) by lia.
    destruct Hr' as [-> | ->]; split; [left; reflexivity| |right; reflexivity|];
      split; reflexivity.
  - intro id. unfold playSoundEffect.
    destruct (0 <=? id)%Z eqn:E; [|reflexivity].
    apply Z.leb_le in E. replace (id <? 0)%Z with false by (symmetry; apply Z.ltb_ge; lia).
    reflexivity.
Qed.

(** X13: [randomValidVersor] draws [r] from [GetRandomValue(-1000, 1000)]
    and returns [r / 1000] with 0 replaced by -1. The value -1 comes from two
    draws, -1000 and 0, while every other value comes from exactly one, so
    -1 is twice as likely as any other direction. *)
Theorem randomValidVersor_minus_one_twice `{Platform} :
  (forall g, wp randomValidVersor (fun v g' =>
     g' = set_rng (S (rng g)) g /\
     exists r, (-1000 <= r <= 1000)%Z /\ v = versor_of_draw r) g) /\
  (forall r, versor_of_draw r == -1 <-> r = (-1000)%Z \/ r = 0%Z) /\
  (forall r1 r2, versor_of_draw r1 == versor_of_draw r2 ->
     r1 = r2 \/ ((r1 = (-1000)%Z \/ r1 = 0%Z) /\ (r2 = (-1000)%Z \/ r2 = 0%Z))).
Proof.
  assert (D : forall r s, inject_Z r / 1000 == inject_Z s / 1000 <-> r = s)
    by (intros r s; unfold Qeq, Qdiv, Qmult, Qinv, inject_Z; cbn; lia).
  assert (M1 : forall r, versor_of_draw r == -1 <-> r = (-1000)%Z \/ r = 0%Z).
  { intro r. unfold versor_of_draw.
    destruct (Qeq_bool (inject_Z r / 1000) 0) eqn:E.
    - apply Qeq_bool_iff in E.
      assert (r = 0%Z) by (apply D; rewrite E; reflexivity).
      split; [right; assumption|reflexivity].
    - apply Qeq_bool_neq in E. split.
      + intro Hv. left. apply D. rewrite Hv. reflexivity.
      + intros [-> | ->]; [reflexivity|exfalso; apply E; reflexivity]. }
  split; [|split; [exact M1|]].
  - intro g. apply randomValidVersor_spec. intros v _ _ Ev.
    split; [reflexivity|]. exists ((rand (rng g) mod 2001) + -1000)%Z.
    split; [|exact Ev]. pose proof (Z.mod_pos_bound (rand (rng g)) 2001 ltac:(lia)). lia.
  - intros r1 r2 E12.
    destruct (Qeq_bool (inject_Z r1 / 1000) 0) eqn:E1.
    + right. split; [apply M1; unfold versor_of_draw; rewrite E1; reflexivity|].
      apply M1. rewrite <- E12. unfold versor_of_draw. rewrite E1. reflexivity.
    + destruct (Qeq_bool (inject_Z r2 / 1000) 0) eqn:E2.
      * right. split; [|apply M1; unfold versor_of_draw; rewrite E2; reflexivity].
        apply M1. rewrite E12. unfold versor_of_draw. rewrite E2. reflexivity.
      * left. apply D. unfold versor_of_draw in E12. rewrite E1, E2 in E12. exact E12.
Qed.

(** X14: for a non-zero vector and a square root that is exact at its
    squared length, [normaliseVersor] returns a vector of length 1; a zero
    component stays zero whatever the square root returns. *)
Theorem normaliseVersor_unit_length `{Platform} (v : Vector2)
  (Hs : sqrtf (vx v * vx v + vy v * vy v) * sqrtf (vx v * vx v + vy v * vy v)
        == vx v * vx v + vy v * vy v)
  (Hnz : ~ vx v * vx v + vy v * vy v == 0) :
  vx (normaliseVersor v) * vx (normaliseVersor v) +
  vy (normaliseVersor v) * vy (normaliseVersor v) == 1 /\
  (vx v == 0 -> vx (normaliseVersor v) == 0) /\
  (vy v == 0 -> vy (normaliseVersor v) == 0).
Proof.
  exact (conj (normaliseVersor_len v Hs Hnz)
              (conj (normaliseVersor_vx0 v) (normaliseVersor_vy0 v))).
Qed.

(** X15: [GameObject::update] (the ball's move) displaces the position by
    exactly [speed * deltaTime], whatever the direction of the non-zero
    versor, for a square root exact at the versor's squared length; it keeps
    the versor and the speed. *)
Theorem GameObject_update_distance `{Platform} (deltaTime : Q) (o : GameObject)
  (Hs : sqrtf (vx (versor o) * vx (versor o) + vy (versor o) * vy (versor o)) *
        sqrtf (vx (versor o) * vx (versor o) + vy (versor o) * vy (versor o))
        == vx (versor o) * vx (versor o) + vy (versor o) * vy (versor o))
  (Hnz : ~ vx (versor o) * vx (versor o) + vy (versor o) * vy (versor o) == 0) :
  let d := vsub (position (GameObject_update deltaTime o)) (position o) in
  vx d * vx d + vy d * vy d == (speed o * deltaTime) * (speed o * deltaTime) /\
  versor (GameObject_update deltaTime o) = versor o /\
  speed (GameObject_update deltaTime o) = speed o.
Proof.
  intro d. split; [|split; reflexivity].
  unfold d, GameObject_update. cbn [position vsub vadd vscale vx vy].
  pose proof (normaliseVersor_len (versor o) Hs Hnz) as L.
  set (nv := normaliseVersor (versor o)) in *.
  transitivity ((vx nv * vx nv + vy nv * vy nv) * (speed o * deltaTime * (speed o * deltaTime)));
    [ring|].
  rewrite L. ring.
Qed.

(** ** Witnesses of the further properties on the sample platform *)

Lemma reachable_fixed_dimensions_witness :
  @reachable sample_platform sample_init_state /\
  radius (ball sample_init_state) = 7 /\
  speed (pobj (leftPaddle sample_init_state)) = 300 /\
  speed (pobj (rightPaddle sample_init_state)) = 300 /\
  size (leftPaddle sample_init_state) = mkVector2 10 100 /\
  size (rightPaddle sample_init_state) = mkVector2 10 100.
Proof.
  split; [exact reachable_sample_init|].
  exact (@reachable_fixed_dimensions sample_platform sample_init_state reachable_sample_init).
Defined.

Lemma reachable_paddles_vertical_witness :
  @reachable sample_platform sample_init_state /\
  vx (position (pobj (leftPaddle sample_init_state))) == 50 /\
  vx (position (pobj (rightPaddle sample_init_state))) == inject_Z screenWidth - 50 /\
  vx (versor (pobj (leftPaddle sample_init_state))) == 0 /\
  vx (versor (pobj (rightPaddle sample_init_state))) == 0.
Proof.
  split; [exact reachable_sample_init|].
  exact (@reachable_paddles_vertical sample_platform sample_init_state reachable_sample_init).
Defined.

Lemma reachable_scores_activeKey_witness :
  @reachable sample_platform sample_init_state /\
  (0 <= scoreLeft sample_init_state)%Z /\ (0 <= scoreRight sample_init_state)%Z /\
  (activeKey sample_init_state = (-1)%Z \/ activeKey sample_init_state = KEY_UP \/
   activeKey sample_init_state = KEY_DOWN).
Proof.
  split; [exact reachable_sample_init|].
  exact (@reachable_scores_activeKey sample_platform sample_init_state reachable_sample_init).
Defined.

Lemma frame_score_step_witness :
  @reachable sample_platform sample_init_state /\
  rPressed (mkFrameInput false false false (1#60)) = false /\
  wp (@frame sample_platform (mkFrameInput false false false (1#60)))
     (fun _ g' => score_step sample_init_state g') sample_init_state.
Proof.
  split; [exact reachable_sample_init|]. split; [reflexivity|].
  exact (@frame_score_step sample_platform sample_init_state
           (mkFrameInput false false false (1#60)) reachable_sample_init eq_refl).
Defined.

Lemma frame_restart_scores_witness :
  @reachable sample_platform sample_init_state /\
  rPressed (mkFrameInput false false true (1#60)) = true /\
  wp (@frame sample_platform (mkFrameInput false false true (1#60)))
     (fun _ g' => scoreLeft g' = 0%Z /\ scoreRight g' = 0%Z) sample_init_state.
Proof.
  split; [exact reachable_sample_init|]. split; [reflexivity|].
  exact (@frame_restart_scores sample_platform sample_init_state
           (mkFrameInput false false true (1#60)) reachable_sample_init eq_refl).
Defined.

Lemma frame_speed_record_witness :
  @reachable sample_platform sample_init_state /\
  wp (@frame sample_platform (mkFrameInput true false false (1#60))) (fun _ g' =>
    (400 <= currentSpeedRecord g')%Z /\
    (float_to_int (speed (bobj (ball g'))) <= currentSpeedRecord g')%Z /\
    (rPressed (mkFrameInput true false false (1#60)) = false ->
       (currentSpeedRecord sample_init_state <= currentSpeedRecord g')%Z)) sample_init_state.
Proof.
  split; [exact reachable_sample_init|].
  exact (@frame_speed_record sample_platform sample_init_state
           (mkFrameInput true false false (1#60)) reachable_sample_init).
Defined.


Lemma frame_key_moves_left_paddle_witness :
  @reachable sample_platform sample_init_state /\
  (forall q, q == 1 -> @sqrtf sample_platform q == 1) /\
  0 <= frameTime (mkFrameInput true false false (1#60)) /\
  rPressed (mkFrameInput true false false (1#60)) = false /\
  (upDown (mkFrameInput true false false (1#60)) = true ->
   downDown (mkFrameInput true false false (1#60)) = false ->
   wp (@frame sample_platform (mkFrameInput true false false (1#60))) (fun _ g' =>
     (0 <= vy (position (pobj (leftPaddle sample_init_state))) - 300 * (1#60) ->
      vy (position (pobj (leftPaddle g'))) ==
        vy (position (pobj (leftPaddle sample_init_state))) - 300 * (1#60)) /\
     (vy (position (pobj (leftPaddle sample_init_state))) - 300 * (1#60) < 0 ->
      vy (position (pobj (leftPaddle g'))) ==
        vy (position (pobj (leftPaddle sample_init_state))))) sample_init_state).
Proof.
  assert (Hs : forall q, q == 1 -> @sqrtf sample_platform q == 1) by exact sample_sqrtf_one.
  assert (Hdt : 0 <= frameTime (mkFrameInput true false false (1#60))) by (cbn; lra).
  split; [exact reachable_sample_init|]. split; [exact Hs|]. split; [exact Hdt|].
  split; [reflexivity|].
  exact (proj1 (@frame_key_moves_left_paddle sample_platform sample_init_state
                  (mkFrameInput true false false (1#60)) reachable_sample_init Hs Hdt eq_refl)).
Defined.



Lemma normaliseVersor_unit_length_witness :
  @sqrtf sample_platform (0 * 0 + -1 * -1) * @sqrtf sample_platform (0 * 0 + -1 * -1)
    == 0 * 0 + -1 * -1 /\
  ~ 0 * 0 + -1 * -1 == 0 /\
  vx (@normaliseVersor sample_platform (mkVector2 0 (-1))) *
  vx (@normaliseVersor sample_platform (mkVector2 0 (-1))) +
  vy (@normaliseVersor sample_platform (mkVector2 0 (-1))) *
  vy (@normaliseVersor sample_platform (mkVector2 0 (-1))) == 1.
Proof.
  assert (Hs : @sqrtf sample_platform (0 * 0 + -1 * -1) * @sqrtf sample_platform (0 * 0 + -1 * -1)
                 == 0 * 0 + -1 * -1) by (vm_compute; reflexivity).
  assert (Hnz : ~ 0 * 0 + -1 * -1 == 0) by (vm_compute; intro E; discriminate E).
  split; [exact Hs|]. split; [exact Hnz|].
  exact (proj1 (@normaliseVersor_unit_length sample_platform (mkVector2 0 (-1)) Hs Hnz)).
Defined.

Lemma GameObject_update_distance_witness :
  @sqrtf sample_platform (1 * 1 + 0 * 0) * @sqrtf sample_platform (1 * 1 + 0 * 0)
    == 1 * 1 + 0 * 0 /\
  ~ 1 * 1 + 0 * 0 == 0 /\
  vx (vsub (position (@GameObject_update sample_platform (1#60)
                        (mkGameObject (mkVector2 400 225) (mkVector2 1 0) 400)))
           (mkVector2 400 225)) *
  vx (vsub (position (@GameObject_update sample_platform (1#60)
                        (mkGameObject (mkVector2 400 225) (mkVector2 1 0) 400)))
           (mkVector2 400 225)) +
  vy (vsub (position (@GameObject_update sample_platform (1#60)
                        (mkGameObject (mkVector2 400 225) (mkVector2 1 0) 400)))
           (mkVector2 400 225)) *
  vy (vsub (position (@GameObject_update sample_platform (1#60)
                        (mkGameObject (mkVector2 400 225) (mkVector2 1 0) 400)))
           (mkVector2 400 225))
  == (400 * (1#60)) * (400 * (1#60)).
Proof.
  assert (Hs : @sqrtf sample_platform (1 * 1 + 0 * 0) * @sqrtf sample_platform (1 * 1 + 0 * 0)
                 == 1 * 1 + 0 * 0) by (vm_compute; reflexivity).
  assert (Hnz : ~ 1 * 1 + 0 * 0 == 0) by (vm_compute; intro E; discriminate E).
  split; [exact Hs|]. split; [exact Hnz|].
  exact (proj1 (@GameObject_update_distance sample_platform (1#60)
                  (mkGameObject (mkVector2 400 225) (mkVector2 1 0) 400) Hs Hnz)).
Defined.
